(** * hyper-staticfile2: a shallow embedding of the path sanitizer, the
    resolver's finalisation, the response builder and the streaming body
    engine, with the properties the specification states about them. *)

From Stdlib Require Import String Ascii List ZArith Bool Lia.
Import ListNotations.
Open Scope Z_scope.

(* ------------------------------------------------------------------ *)
(** ** Bytes and strings *)

(** Rust's [&str], [String], [OsStr] and [Bytes] are byte sequences; a
    byte is a [Z] in [0, 256). *)
Definition bytes := list Z.

Definition bytes_of (s : string) : bytes :=
  map (fun a => Z.of_N (N_of_ascii a)) (list_ascii_of_string s).

Definition bytes_eqb (a b : bytes) : bool :=
  if list_eq_dec Z.eq_dec a b then true else false.

Definition SLASH : Z := 47.
Definition DOT : Z := 46.
Definition PERCENT : Z := 37.

Definition u64_mod : Z := 2 ^ 64.

(* ------------------------------------------------------------------ *)
(** ** std::path on Unix *)

Inductive Component :=
| Prefix (p : bytes)
| RootDir
| CurDir
| ParentDir
| Normal (x : bytes).

(** Splitting on ['/'], keeping empty pieces (as [split(b'/')]). *)
Fixpoint split_slash (s : bytes) : list bytes :=
  match s with
  | [] => [[]]
  | c :: rest =>
      if c =? SLASH then [] :: split_slash rest
      else match split_slash rest with
           | [] => [[c]]
           | p :: ps => (c :: p) :: ps
           end
  end.

(** [Components::parse_single_component]: empty pieces and ["."] in the
    body are skipped, [".."] is the parent directory. *)
Definition parse_single_component (c : bytes) : option Component :=
  match c with
  | [] => None
  | [d] => if d =? DOT then None else Some (Normal c)
  | [d1; d2] => if (d1 =? DOT) && (d2 =? DOT) then Some ParentDir else Some (Normal c)
  | _ => Some (Normal c)
  end.

Definition parse_body (s : bytes) : list Component :=
  flat_map (fun c => match parse_single_component c with
                     | Some x => [x]
                     | None => []
                     end) (split_slash s).

(** [Components::include_cur_dir]: a relative path whose first component
    is ["."] starts with [CurDir]. *)
Definition include_cur_dir (s : bytes) : bool :=
  match s with
  | [d] => d =? DOT
  | d :: c :: _ => (d =? DOT) && (c =? SLASH)
  | [] => false
  end.

(** [Path::components] on a Unix target (no prefixes). *)
Definition components (s : bytes) : list Component :=
  match s with
  | c :: rest =>
      if c =? SLASH then RootDir :: parse_body rest
      else if include_cur_dir s then CurDir :: parse_body rest
      else parse_body s
  | [] => []
  end.

Definition is_normal (c : Component) : bool :=
  match c with Normal _ => true | _ => false end.

(** A [PathBuf] built by [push]ing relative single components is kept as
    the list of those components; [render] is its string form ([push]
    inserts one separator between components, [pop] drops the last one,
    and does nothing on the empty path). *)
Fixpoint render (p : list bytes) : bytes :=
  match p with
  | [] => []
  | [x] => x
  | x :: rest => x ++ SLASH :: render rest
  end.

Definition pathbuf_push (p : list bytes) (x : bytes) : list bytes := p ++ [x].
Definition pathbuf_pop (p : list bytes) : list bytes := removelast p.

(** [sanitize_path], src/util/requested_path.rs. *)
Definition sanitize_step (result : list bytes) (p : Component) : list bytes :=
  match p with
  | Normal x =>
      if forallb is_normal (components x) then pathbuf_push result x else result
  | ParentDir => pathbuf_pop result
  | _ => result
  end.

Definition sanitize_path (path : bytes) : list bytes :=
  fold_left sanitize_step (components path) [].

(** Lexical resolution of a path against a root directory, as the
    operating system does when [TokioFileOpener::open] extends its root
    with the path: a normal name descends, [..] ascends, a root restarts. *)
Definition resolve_step (acc : list bytes) (c : Component) : list bytes :=
  match c with
  | Normal x => acc ++ [x]
  | ParentDir => removelast acc
  | CurDir => acc
  | RootDir | Prefix _ => []
  end.

Definition resolve_under (root : list bytes) (path : bytes) : list bytes :=
  fold_left resolve_step (components path) root.

(** A name that [Path::components] reports as [Normal]. *)
Definition good_name (x : bytes) : Prop :=
  x <> [] /\ ~ In SLASH x /\ x <> [DOT] /\ x <> [DOT; DOT].

(* ------------------------------------------------------------------ *)
(** ** Percent decoding and lossy UTF-8 decoding *)

(** [char::to_digit(16)] on one byte. *)
Definition hex_val (b : Z) : option Z :=
  if (48 <=? b) && (b <=? 57) then Some (b - 48)
  else if (65 <=? b) && (b <=? 70) then Some (b - 55)
  else if (97 <=? b) && (b <=? 102) then Some (b - 87)
  else None.

(** [percent_encoding::percent_decode_str]: ["%XY"] with two hex digits
    becomes one byte; any other ['%'] is kept as it is. *)
Fixpoint percent_decode (s : bytes) : bytes :=
  match s with
  | [] => []
  | b :: rest =>
      if b =? PERCENT then
        match rest with
        | h :: l :: rest' =>
            match hex_val h, hex_val l with
            | Some hv, Some lv => (hv * 16 + lv) :: percent_decode rest'
            | _, _ => b :: percent_decode rest
            end
        | _ => b :: percent_decode rest
        end
      else b :: percent_decode rest
  end.

(** The lead byte of a UTF-8 sequence: the range allowed for the next
    byte and how many continuation bytes follow that one. *)
Inductive lead_class :=
| LeadAscii
| LeadMulti (lo hi : Z) (more : nat)
| LeadInvalid.

Definition in_range (lo hi b : Z) : bool := (lo <=? b) && (b <=? hi).

Definition classify (b : Z) : lead_class :=
  if b <=? 127 then LeadAscii
  else if in_range 194 223 b then LeadMulti 128 191 0
  else if b =? 224 then LeadMulti 160 191 1
  else if in_range 225 236 b || in_range 238 239 b then LeadMulti 128 191 1
  else if b =? 237 then LeadMulti 128 159 1
  else if b =? 240 then LeadMulti 144 191 2
  else if in_range 241 243 b then LeadMulti 128 191 2
  else if b =? 244 then LeadMulti 128 143 2
  else LeadInvalid.

(** U+FFFD, encoded. *)
Definition REPLACEMENT : bytes := [239; 191; 189].

(** [String::from_utf8_lossy]: every maximal invalid prefix of a sequence
    is replaced by one U+FFFD, and the byte that broke the sequence is
    decoded afresh.  [pend] holds the bytes of the sequence in progress
    and [out] the output so far, both reversed. *)
Record lossy_state := mk_lossy {
  lq : option (Z * Z * nat);
  pend : bytes;
  out : bytes
}.

Definition lossy_start (o : bytes) (b : Z) : lossy_state :=
  match classify b with
  | LeadAscii => mk_lossy None [] (b :: o)
  | LeadMulti lo hi m => mk_lossy (Some (lo, hi, m)) [b] o
  | LeadInvalid => mk_lossy None [] (rev REPLACEMENT ++ o)
  end.

Definition lossy_step (s : lossy_state) (b : Z) : lossy_state :=
  match lq s with
  | None => lossy_start (out s) b
  | Some (lo, hi, m) =>
      if in_range lo hi b then
        match m with
        | O => mk_lossy None [] (b :: pend s ++ out s)
        | S m' => mk_lossy (Some (128, 191, m')) (b :: pend s) (out s)
        end
      else lossy_start (rev REPLACEMENT ++ out s) b
  end.

Definition utf8_lossy (l : bytes) : bytes :=
  let s := fold_left lossy_step l (mk_lossy None [] []) in
  match lq s with
  | None => rev (out s)
  | Some _ => rev (rev REPLACEMENT ++ out s)
  end.

(** Well-formed UTF-8 ([std::str::from_utf8] succeeds), as the automaton
    that [classify] describes. *)
Definition utf8_dfa_step (q : option (Z * Z * nat)) (b : Z) : option (option (Z * Z * nat)) :=
  match q with
  | None =>
      match classify b with
      | LeadAscii => Some None
      | LeadMulti lo hi m => Some (Some (lo, hi, m))
      | LeadInvalid => None
      end
  | Some (lo, hi, m) =>
      if in_range lo hi b then
        match m with
        | O => Some None
        | S m' => Some (Some (128, 191, m'))
        end
      else None
  end.

Fixpoint utf8_dfa_run (q : option (Z * Z * nat)) (l : bytes) : option (option (Z * Z * nat)) :=
  match l with
  | [] => Some q
  | b :: l' =>
      match utf8_dfa_step q b with
      | Some q' => utf8_dfa_run q' l'
      | None => None
      end
  end.

Definition utf8_valid (l : bytes) : Prop := utf8_dfa_run None l = Some None.

(** [decode_percents], src/util/requested_path.rs. *)
Definition decode_percents (s : bytes) : bytes := utf8_lossy (percent_decode s).

Record RequestedPath := mk_requested_path {
  sanitized : list bytes;
  is_dir_request : bool
}.

(** [RequestedPath::resolve]. *)
Definition requested_path_resolve (request_path : bytes) : RequestedPath :=
  let is_dir := match request_path with
                | [] => false
                | _ => last request_path 0 =? SLASH
                end in
  mk_requested_path (sanitize_path (decode_percents request_path)) is_dir.

Definition is_hex (b : Z) : bool :=
  match hex_val b with Some _ => true | None => false end.

(** Whether a byte string holds a percent escape: ['%'] followed by two
    hexadecimal digits. *)
Fixpoint has_percent_escape (s : bytes) : bool :=
  match s with
  | b :: ((h :: l :: _) as rest) =>
      ((b =? PERCENT) && is_hex h && is_hex l) || has_percent_escape rest
  | _ => false
  end.

(** Invariants of the UTF-8 automaton and of the lossy decoder. *)

(** The automaton only ever waits for bytes from 128 on. *)
Definition dfa_ok (q : option (Z * Z * nat)) : Prop :=
  match q with None => True | Some (lo, _, _) => 128 <= lo end.

(** The lossy decoder leaves well-formed UTF-8 unchanged. *)
Definition lossy_inv (s : lossy_state) (q : option (Z * Z * nat)) (pre : bytes) : Prop :=
  lq s = q /\ rev (pend s ++ out s) = pre /\ (q = None -> pend s = []).

(** The output of the lossy decoder is well-formed UTF-8. *)
Definition out_inv (s : lossy_state) : Prop :=
  utf8_valid (rev (out s)) /\
  match lq s with
  | None => True
  | Some q => utf8_dfa_run None (rev (pend s)) = Some (Some q)
  end.

(* ------------------------------------------------------------------ *)
(** ** Machine integers and number formatting *)

(** [u64] addition and subtraction as a release build performs them. *)
Definition u64_add (a b : Z) : Z := (a + b) mod u64_mod.
Definition u64_sub (a b : Z) : Z := (a - b) mod u64_mod.

(** [x as usize] on a 64-bit target. *)
Definition usize_of (x : Z) : Z := x mod u64_mod.

Definition digit_char (d : Z) : Z := if d <? 10 then 48 + d else 87 + d.

Fixpoint fmt_radix_aux (fuel : nat) (base n : Z) (acc : bytes) : bytes :=
  match fuel with
  | O => acc
  | S f =>
      let acc' := digit_char (n mod base) :: acc in
      if n / base =? 0 then acc' else fmt_radix_aux f base (n / base) acc'
  end.

(** [format!("{}")] and [format!("{:x}")] of an unsigned integer. *)
Definition fmt_radix (base n : Z) : bytes :=
  fmt_radix_aux (S (Z.to_nat (Z.log2 n))) base n [].
Definition fmt_dec (n : Z) : bytes := fmt_radix 10 n.
Definition fmt_hex (n : Z) : bytes := fmt_radix 16 n.

(* ------------------------------------------------------------------ *)
(** ** The file access layer, src/vfs.rs *)

Inductive Poll (A : Type) := Ready (a : A) | Pending.
Arguments Ready {A} a.
Arguments Pending {A}.

Inductive IoErrorKind := NotFoundKind | PermissionDeniedKind | OtherKind.

Inductive result (A : Type) := Ok (a : A) | Err (e : IoErrorKind).
Arguments Ok {A} a.
Arguments Err {A} e.

(** [FileAccess]: [AsyncSeek] ([start_seek], [poll_complete]) and
    [poll_read] with a length cap. *)
Class FileAccess (F : Type) := {
  start_seek : F -> Z -> result unit * F;
  poll_complete : F -> Poll (result Z) * F;
  poll_read : F -> Z -> Poll (result bytes) * F
}.

(** The in-memory backend: [Cursor<Bytes>]. *)
Record Cursor := mk_cursor {
  cursor_data : bytes;
  cursor_pos : Z
}.

(** [Bytes::slice(start..end)]. *)
Definition slice (l : bytes) (start end_ : Z) : bytes :=
  firstn (Z.to_nat (end_ - start)) (skipn (Z.to_nat start) l).

(** [<Cursor<Bytes> as FileAccess>::poll_read]: the cursor position is
    read but not advanced. *)
Definition cursor_poll_read (c : Cursor) (len : Z) : Poll (result bytes) * Cursor :=
  let pos := cursor_pos c in
  let sl := cursor_data c in
  if pos >? Z.of_nat (length sl) then (Ready (Ok []), c)
  else
    let start := pos in
    let amt := Z.min (Z.of_nat (length sl) - start) len in
    let end_ := start + amt in
    (Ready (Ok (slice sl start end_)), c).

(** Tokio's [AsyncSeek] for [std::io::Cursor]: [SeekFrom::Start(n)] sets
    the position; completion reports it. *)
#[global] Instance cursor_file_access : FileAccess Cursor := {
  start_seek c n := (Ok tt, mk_cursor (cursor_data c) n);
  poll_complete c := (Ready (Ok (cursor_pos c)), c);
  poll_read := cursor_poll_read
}.

(** The disk backend: [TokioFileAccess] over an open file of [tf_size]
    bytes whose byte at offset [i] is [tf_byte i].  What the operating
    system does on each read is an oracle [tf_os]: a read of at most [k]
    bytes, a pending poll, or an error; once the oracle is exhausted every
    read returns as much as the buffer and the file allow. *)
Inductive OsEvent := OsRead (k : Z) | OsPending | OsError.

Record TokioFileAccess := mk_tokio {
  tf_size : Z;
  tf_byte : Z -> Z;
  tf_pos : Z;
  tf_os : list OsEvent
}.

Definition TOKIO_READ_BUF_SIZE : Z := 8 * 1024.

Definition file_bytes (t : TokioFileAccess) (n : Z) : bytes :=
  map (fun i => tf_byte t (tf_pos t + Z.of_nat i)) (seq 0 (Z.to_nat n)).

Definition tokio_advance (t : TokioFileAccess) (n : Z) (os : list OsEvent) : TokioFileAccess :=
  mk_tokio (tf_size t) (tf_byte t) (tf_pos t + n) os.

(** [tokio::fs::File::poll_read] into a [ReadBuf] of capacity [cap]: the
    buffer is never filled beyond its capacity. *)
Definition file_poll_read (t : TokioFileAccess) (cap : Z) : Poll (result bytes) * TokioFileAccess :=
  let avail := Z.max 0 (tf_size t - tf_pos t) in
  match tf_os t with
  | OsPending :: os => (Pending, tokio_advance t 0 os)
  | OsError :: os => (Ready (Err OtherKind), tokio_advance t 0 os)
  | OsRead k :: os =>
      let n := Z.min cap (Z.min (Z.max 0 k) avail) in
      (Ready (Ok (file_bytes t n)), tokio_advance t n os)
  | [] =>
      let n := Z.min cap avail in
      (Ready (Ok (file_bytes t n)), tokio_advance t n [])
  end.

(** [<TokioFileAccess as FileAccess>::poll_read]. *)
Definition tokio_poll_read (t : TokioFileAccess) (len : Z) : Poll (result bytes) * TokioFileAccess :=
  let len := Z.min len TOKIO_READ_BUF_SIZE in
  match file_poll_read t len with
  | (Ready (Ok filled), t') =>
      match filled with
      | [] => (Ready (Ok []), t')
      | _ => (Ready (Ok filled), t')
      end
  | (Ready (Err e), t') => (Ready (Err e), t')
  | (Pending, t') => (Pending, t')
  end.

#[global] Instance tokio_file_access : FileAccess TokioFileAccess := {
  start_seek t n := (Ok tt, mk_tokio (tf_size t) (tf_byte t) n (tf_os t));
  poll_complete t := (Ready (Ok (tf_pos t)), t);
  poll_read := tokio_poll_read
}.

(* ------------------------------------------------------------------ *)
(** ** The streaming body engine, src/util/file_bytes_stream.rs *)

(** [http_range::HttpRange]. *)
Record HttpRange := mk_range {
  range_start : Z;
  range_length : Z
}.

(** [futures::Stream::poll_next] of a body stream. *)
Class Stream (S : Type) := {
  poll_next : S -> Poll (option (result bytes)) * S
}.

Section Streams.
Context {F : Type} `{FileAccess F}.

Record FileBytesStream := mk_fbs {
  fbs_file : F;
  remaining : Z
}.

Definition fbs_new (file : F) : FileBytesStream := mk_fbs file (u64_mod - 1).
Definition fbs_new_with_limit (file : F) (limit : Z) : FileBytesStream := mk_fbs file limit.

(** [<FileBytesStream as Stream>::poll_next]. *)
Definition fbs_poll_next (s : FileBytesStream) : Poll (option (result bytes)) * FileBytesStream :=
  let '(r, f') := poll_read (fbs_file s) (usize_of (remaining s)) in
  match r with
  | Ready (Ok buf) =>
      let rem := u64_sub (remaining s) (Z.of_nat (length buf)) in
      (match buf with [] => Ready None | _ => Ready (Some (Ok buf)) end, mk_fbs f' rem)
  | Ready (Err e) => (Ready (Some (Err e)), mk_fbs f' (remaining s))
  | Pending => (Pending, mk_fbs f' (remaining s))
  end.

Inductive FileSeekState := NeedSeek | Seeking | Reading.

Record FileBytesStreamRange := mk_fbsr {
  file_stream : FileBytesStream;
  seek_state : FileSeekState;
  start_offset : Z
}.

Definition fbsr_new (file : F) (range : HttpRange) : FileBytesStreamRange :=
  mk_fbsr (fbs_new_with_limit file (range_length range)) NeedSeek (range_start range).

Definition fbsr_without_initial_range (file : F) : FileBytesStreamRange :=
  mk_fbsr (fbs_new_with_limit file 0) NeedSeek 0.

(** The reading part of [<FileBytesStreamRange as Stream>::poll_next]. *)
Definition fbsr_read (fs : FileBytesStream) (st : FileSeekState) (off : Z)
  : Poll (option (result bytes)) * FileBytesStreamRange :=
  let '(p, fs') := fbs_poll_next fs in (p, mk_fbsr fs' st off).

(** The [Seeking] part: poll the seek, then read once it completed. *)
Definition fbsr_complete (fs : FileBytesStream) (off : Z)
  : Poll (option (result bytes)) * FileBytesStreamRange :=
  let '(r, f2) := poll_complete (fbs_file fs) in
  let fs2 := mk_fbs f2 (remaining fs) in
  match r with
  | Ready (Ok _) => fbsr_read fs2 Reading off
  | Ready (Err e) => (Ready (Some (Err e)), mk_fbsr fs2 Seeking off)
  | Pending => (Pending, mk_fbsr fs2 Seeking off)
  end.

(** [<FileBytesStreamRange as Stream>::poll_next]. *)
Definition fbsr_poll_next (s : FileBytesStreamRange)
  : Poll (option (result bytes)) * FileBytesStreamRange :=
  let off := start_offset s in
  match seek_state s with
  | NeedSeek =>
      let '(r, f1) := start_seek (fbs_file (file_stream s)) off in
      let fs1 := mk_fbs f1 (remaining (file_stream s)) in
      match r with
      | Err e => (Ready (Some (Err e)), mk_fbsr fs1 Seeking off)
      | Ok _ => fbsr_complete fs1 off
      end
  | Seeking => fbsr_complete (file_stream s) off
  | Reading => fbsr_read (file_stream s) Reading off
  end.

Record FileBytesStreamMultiRange := mk_fbsm {
  file_range : FileBytesStreamRange;
  range_iter : list HttpRange;
  is_first_boundary : bool;
  completed : bool;
  boundary : bytes;
  content_type : bytes;
  file_length : Z
}.

Definition fbsm_new (file : F) (ranges : list HttpRange) (b : bytes) (fl : Z)
  : FileBytesStreamMultiRange :=
  mk_fbsm (fbsr_without_initial_range file) ranges true false b [] fl.

Definition set_content_type (s : FileBytesStreamMultiRange) (ct : bytes)
  : FileBytesStreamMultiRange :=
  mk_fbsm (file_range s) (range_iter s) (is_first_boundary s) (completed s)
          (boundary s) ct (file_length s).

End Streams.

Arguments FileBytesStream F : clear implicits.
Arguments FileBytesStreamRange F : clear implicits.
Arguments FileBytesStreamMultiRange F : clear implicits.

Definition CRLF : bytes := [13; 10].

(** [render_multipart_header]. *)
Definition render_multipart_header (b ct : bytes) (range : HttpRange) (is_first : bool)
  (fl : Z) : bytes :=
  (if is_first then [] else CRLF) ++
  bytes_of "--" ++ b ++ CRLF ++
  bytes_of "Content-Range: " ++ fmt_dec (range_start range) ++ bytes_of "-" ++
  fmt_dec (u64_sub (u64_add (range_start range) (range_length range)) 1) ++
  bytes_of "/" ++ fmt_dec fl ++ CRLF ++
  (match ct with
   | [] => []
   | _ => bytes_of "Content-Type: " ++ ct ++ CRLF
   end) ++
  CRLF.

(** [render_multipart_header_end]. *)
Definition render_multipart_header_end (b : bytes) : bytes :=
  CRLF ++ bytes_of "--" ++ b ++ bytes_of "--" ++ CRLF.

(** The loop of [compute_length] over the ranges still in the iterator. *)
Fixpoint compute_length_loop (b ct : bytes) (fl : Z) (rs : list HttpRange)
  (is_first : bool) (total : Z) : Z :=
  match rs with
  | [] => total
  | r :: rs' =>
      let header := render_multipart_header b ct r is_first fl in
      compute_length_loop b ct fl rs' false
        (u64_add (u64_add total (Z.of_nat (length header))) (range_length r))
  end.

(** [FileBytesStreamMultiRange::compute_length]. *)
Definition compute_length {F} (s : FileBytesStreamMultiRange F) : Z :=
  let total := compute_length_loop (boundary s) (content_type s) (file_length s)
                 (range_iter s) true 0 in
  u64_add total (Z.of_nat (length (render_multipart_header_end (boundary s)))).

(** [<FileBytesStreamMultiRange as Stream>::poll_next]. *)
Definition fbsm_poll_next {F} `{FileAccess F} (s : FileBytesStreamMultiRange F)
  : Poll (option (result bytes)) * FileBytesStreamMultiRange F :=
  if completed s then (Ready None, s)
  else if remaining (file_stream (file_range s)) =? 0 then
    match range_iter s with
    | [] =>
        (Ready (Some (Ok (render_multipart_header_end (boundary s)))),
         mk_fbsm (file_range s) [] (is_first_boundary s) true
                 (boundary s) (content_type s) (file_length s))
    | r :: rest =>
        let fr := file_range s in
        let fr' := mk_fbsr (mk_fbs (fbs_file (file_stream fr)) (range_length r))
                           NeedSeek (range_start r) in
        let header := render_multipart_header (boundary s) (content_type s) r
                        (is_first_boundary s) (file_length s) in
        (Ready (Some (Ok header)),
         mk_fbsm fr' rest false (completed s) (boundary s) (content_type s) (file_length s))
    end
  else
    let '(p, fr') := fbsr_poll_next (file_range s) in
    (p, mk_fbsm fr' (range_iter s) (is_first_boundary s) (completed s)
                (boundary s) (content_type s) (file_length s)).

#[global] Instance fbs_stream {F} `{FileAccess F} : Stream (FileBytesStream F) :=
  { poll_next := fbs_poll_next }.
#[global] Instance fbsr_stream {F} `{FileAccess F} : Stream (FileBytesStreamRange F) :=
  { poll_next := fbsr_poll_next }.
#[global] Instance fbsm_stream {F} `{FileAccess F} : Stream (FileBytesStreamMultiRange F) :=
  { poll_next := fbsm_poll_next }.

(* ------------------------------------------------------------------ *)
(** ** Running a stream *)

(** A stream polled to its end: every poll yields a chunk or is pending,
    until the end of the stream. *)
Inductive drains {S} `{Stream S} : S -> list bytes -> Prop :=
| drains_end s s' : poll_next s = (Ready None, s') -> drains s []
| drains_chunk s s' c o :
    poll_next s = (Ready (Some (Ok c)), s') -> drains s' o -> drains s (c :: o)
| drains_pending s s' o : poll_next s = (Pending, s') -> drains s' o -> drains s o.

(** The same, with a bound on the number of polls. *)
Fixpoint drain {S} `{Stream S} (fuel : nat) (s : S) : option (list bytes) :=
  match fuel with
  | O => None
  | S f =>
      match poll_next s with
      | (Ready None, _) => Some []
      | (Ready (Some (Ok c)), s') => option_map (cons c) (drain f s')
      | (Ready (Some (Err _)), _) => None
      | (Pending, s') => drain f s'
      end
  end.

(** [n] polls: what each returned, and the state after them. *)
Fixpoint poll_n {S} `{Stream S} (n : nat) (s : S)
  : list (Poll (option (result bytes))) * S :=
  match n with
  | O => ([], s)
  | S m =>
      let '(p, s') := poll_next s in
      let '(ps, s'') := poll_n m s' in
      (p :: ps, s'')
  end.

Definition total_len (o : list bytes) : Z :=
  fold_right (fun c acc => Z.of_nat (length c) + acc) 0 o.

(** The exact length of a multipart body, without machine arithmetic:
    part headers and part lengths, then the closing boundary. *)
Fixpoint parts_length (b ct : bytes) (fl : Z) (rs : list HttpRange) (is_first : bool) : Z :=
  match rs with
  | [] => 0
  | r :: rs' =>
      Z.of_nat (length (render_multipart_header b ct r is_first fl)) + range_length r +
      parts_length b ct fl rs' false
  end.

Definition multipart_body_length {F} (s : FileBytesStreamMultiRange F) : Z :=
  parts_length (boundary s) (content_type s) (file_length s) (range_iter s) true +
  Z.of_nat (length (render_multipart_header_end (boundary s))).

(** Polling [s] yields the chunks [o], all of them data, and leaves [s']. *)
Inductive emits {S} `{Stream S} : S -> list bytes -> S -> Prop :=
| emits_refl s : emits s [] s
| emits_chunk s s1 c o s2 :
    poll_next s = (Ready (Some (Ok c)), s1) -> emits s1 o s2 -> emits s (c :: o) s2.

(** A range lies within a file of [size] bytes. *)
Definition range_within (size : Z) (r : HttpRange) : Prop :=
  0 <= range_start r /\ 0 <= range_length r /\ range_start r + range_length r <= size.

(** The bytes a sequence of polls delivered. *)
Definition chunk_len (p : Poll (option (result bytes))) : Z :=
  match p with
  | Ready (Some (Ok c)) => Z.of_nat (length c)
  | _ => 0
  end.

Definition emitted (ps : list (Poll (option (result bytes)))) : Z :=
  fold_right (fun p acc => chunk_len p + acc) 0 ps.

(* ------------------------------------------------------------------ *)
(** ** Example streams *)

(** A 40-byte in-memory file with two ranges of a multipart response. *)
Definition ex_data : bytes := map Z.of_nat (seq 0 40).
Definition ex_cursor : Cursor := mk_cursor ex_data 0.
Definition ex_ranges : list HttpRange := [mk_range 0 10; mk_range 20 10].
Definition ex_stream : FileBytesStreamMultiRange Cursor :=
  set_content_type (fbsm_new ex_cursor ex_ranges (bytes_of "BND") 40) (bytes_of "text/css").
Definition ex_outs : list bytes :=
  match drain 20 ex_stream with Some o => o | None => [] end.

(** A sparse disk file of 2^63 - 1 bytes asked for three times in full. *)
Definition big_size : Z := 2 ^ 63 - 1.
Definition big_file : TokioFileAccess := mk_tokio big_size (fun _ => 0) 0 [].
Definition big_ranges : list HttpRange :=
  [mk_range 0 big_size; mk_range 0 big_size; mk_range 0 big_size].
Definition big_stream : FileBytesStreamMultiRange TokioFileAccess :=
  set_content_type (fbsm_new big_file big_ranges (bytes_of "BND") big_size)
                   (bytes_of "application/octet-stream").

(* ------------------------------------------------------------------ *)
(** ** Resolution of a found file, src/resolve.rs *)

Inductive Encoding := Gzip | Br | Zstd.

(** [Encoding::to_header_value]. *)
Definition to_header_value (e : Encoding) : bytes :=
  match e with
  | Gzip => bytes_of "gzip"
  | Br => bytes_of "br"
  | Zstd => bytes_of "zstd"
  end.

Record AcceptEncoding := mk_accept_encoding {
  gzip : bool;
  br : bool;
  zstd : bool
}.

(** [vfs::FileWithMetadata]; a [SystemTime] is a count of nanoseconds
    from the Unix epoch, negative before it. *)
Record FileWithMetadata (F : Type) := mk_fwm {
  fwm_handle : F;
  fwm_size : Z;
  fwm_modified : option Z;
  fwm_is_dir : bool
}.
Arguments mk_fwm {F} _ _ _ _.
Arguments fwm_handle {F} _.
Arguments fwm_size {F} _.
Arguments fwm_modified {F} _.
Arguments fwm_is_dir {F} _.

Record ResolvedFile (F : Type) := mk_resolved_file {
  rf_handle : F;
  rf_path : bytes;
  rf_size : Z;
  rf_modified : option Z;
  rf_content_type : option bytes;
  rf_encoding : option Encoding
}.
Arguments mk_resolved_file {F} _ _ _ _ _ _.
Arguments rf_handle {F} _.
Arguments rf_path {F} _.
Arguments rf_size {F} _.
Arguments rf_modified {F} _.
Arguments rf_content_type {F} _.
Arguments rf_encoding {F} _.

(** [ResolvedFile::new]. *)
Definition resolved_file_new {F} (file : FileWithMetadata F) (path : bytes)
  (content_type : option bytes) (encoding : option Encoding) : ResolvedFile F :=
  mk_resolved_file (fwm_handle file) path (fwm_size file) (fwm_modified file)
                   content_type encoding.

Inductive ResolveResult (F : Type) :=
| MethodNotMatched
| NotFound
| PermissionDenied
| IsDirectory (redirect_to : bytes)
| Found (file : ResolvedFile F).
Arguments MethodNotMatched {F}.
Arguments NotFound {F}.
Arguments PermissionDenied {F}.
Arguments IsDirectory {F} _.
Arguments Found {F} _.

Section Resolver.
Context {F : Type}.
(** [FileOpener::open] on the fixed file system, by path (an [OsString]). *)
Variable open : bytes -> result (FileWithMetadata F).
(** [MimeGuess::from_path(..).first()] and [set_charset(..).to_string()]. *)
Variable mime_guess_first : bytes -> option bytes.
Variable set_charset : bytes -> bytes.

(** [Resolver::resolve_final]: [OsString::push] appends the suffix bytes. *)
Definition resolve_final (file : FileWithMetadata F) (path : bytes)
  (accept_encoding : AcceptEncoding) : result (ResolveResult F) :=
  let mimetype := option_map set_charset (mime_guess_first path) in
  let zstd_path := path ++ bytes_of "zst" in
  match (if zstd accept_encoding then open zstd_path else Err OtherKind) with
  | Ok f => Ok (Found (resolved_file_new f zstd_path mimetype (Some Zstd)))
  | Err _ =>
  let br_path := path ++ bytes_of ".br" in
  match (if br accept_encoding then open br_path else Err OtherKind) with
  | Ok f => Ok (Found (resolved_file_new f br_path mimetype (Some Br)))
  | Err _ =>
  let gzip_path := path ++ bytes_of ".gz" in
  match (if gzip accept_encoding then open gzip_path else Err OtherKind) with
  | Ok f => Ok (Found (resolved_file_new f gzip_path mimetype (Some Gzip)))
  | Err _ => Ok (Found (resolved_file_new file path mimetype None))
  end end end.

(** The specification's description of the same step: siblings are tried
    in the order Zstd, Br, Gzip, each only when its encoding is accepted,
    named by appending the encoding's suffix to the original path. *)
Definition spec_suffix (e : Encoding) : bytes :=
  match e with
  | Zstd => bytes_of "zst"
  | Br => bytes_of ".br"
  | Gzip => bytes_of ".gz"
  end.

Definition spec_accepts (ae : AcceptEncoding) (e : Encoding) : bool :=
  match e with
  | Zstd => zstd ae
  | Br => br ae
  | Gzip => gzip ae
  end.

Fixpoint spec_first_sibling (path : bytes) (ae : AcceptEncoding) (order : list Encoding)
  : option (Encoding * FileWithMetadata F) :=
  match order with
  | [] => None
  | e :: rest =>
      if spec_accepts ae e then
        match open (path ++ spec_suffix e) with
        | Ok sib => Some (e, sib)
        | Err _ => spec_first_sibling path ae rest
        end
      else spec_first_sibling path ae rest
  end.

Definition resolve_final_spec (file : FileWithMetadata F) (path : bytes)
  (ae : AcceptEncoding) : result (ResolveResult F) :=
  let content_type := option_map set_charset (mime_guess_first path) in
  match spec_first_sibling path ae [Zstd; Br; Gzip] with
  | Some (e, sib) =>
      Ok (Found (mk_resolved_file (fwm_handle sib) (path ++ spec_suffix e) (fwm_size sib)
                                  (fwm_modified sib) content_type (Some e)))
  | None =>
      Ok (Found (mk_resolved_file (fwm_handle file) path (fwm_size file)
                                  (fwm_modified file) content_type None))
  end.

End Resolver.

(* ------------------------------------------------------------------ *)
(** ** The response builder, src/util/file_response_builder.rs *)

Definition NANOS_PER_SEC : Z := 1000000000.

(** [MIN_VALID_MTIME = Duration::from_secs(2)], in nanoseconds. *)
Definition MIN_VALID_MTIME : Z := 2 * NANOS_PER_SEC.

(** [SystemTime::duration_since(UNIX_EPOCH)]: a duration in nanoseconds,
    or an error for a time before the epoch. *)
Definition duration_since_epoch (t : Z) : option Z :=
  if 0 <=? t then Some t else None.

(** [http_range::HttpRange::parse]'s outcomes. *)
Inductive RangeParse :=
| RangeOk (ranges : list HttpRange)
| NoOverlap
| InvalidRange.

Inductive Body (F : Type) :=
| BodyEmpty
| BodyFull (s : FileBytesStream F)
| BodyRange (s : FileBytesStreamRange F)
| BodyMultiRange (s : FileBytesStreamMultiRange F).
Arguments BodyEmpty {F}.
Arguments BodyFull {F} _.
Arguments BodyRange {F} _.
Arguments BodyMultiRange {F} _.

Record Response (F : Type) := mk_response {
  status : Z;
  headers : list (bytes * bytes);
  body : Body F
}.
Arguments mk_response {F} _ _ _.
Arguments status {F} _.
Arguments headers {F} _.
Arguments body {F} _.

Record FileResponseBuilder := mk_builder {
  cache_headers : option Z;
  is_head : bool;
  if_modified_since : option Z;
  range : option bytes;
  if_range : option bytes
}.

Definition QUOTE : Z := 34.

(** [HeaderValue::to_str]: visible ASCII or tab only. *)
Definition header_visible (c : Z) : bool := ((32 <=? c) && (c <? 127)) || (c =? 9).
Definition header_to_str (v : bytes) : option bytes :=
  if forallb header_visible v then Some v else None.

(** [content_range_header]. *)
Definition content_range_header (r : HttpRange) (total_length : Z) : bytes :=
  bytes_of "bytes " ++ fmt_dec (range_start r) ++ bytes_of "-" ++
  fmt_dec (u64_sub (u64_add (range_start r) (range_length r)) 1) ++
  bytes_of "/" ++ fmt_dec total_length.

Section Builder.
Context {F G : Type} `{FileAccess G}.
(** [IntoFileAccess::into_file_access]. *)
Variable into_file_access : F -> G.
(** [http_range::HttpRange::parse]. *)
Variable http_range_parse : bytes -> Z -> RangeParse.
(** [httpdate::fmt_http_date]. *)
Variable fmt_http_date : Z -> bytes.
(** [httpdate::parse_http_date], as whole seconds after the epoch. *)
Variable parse_http_date_secs : bytes -> option N.

(** [FileResponseBuilder::if_modified_since_header]. *)
Definition if_modified_since_header (b : FileResponseBuilder) (value : option bytes)
  : FileResponseBuilder :=
  let ims := match value with
             | Some v =>
                 match header_to_str v with
                 | Some s => option_map (fun d => Z.of_N d * NANOS_PER_SEC)
                                        (parse_http_date_secs s)
                 | None => None
                 end
             | None => None
             end in
  mk_builder (cache_headers b) (is_head b) ims (range b) (if_range b).

(** The part of [build] up to the cache headers: either the early 304
    response or the headers so far and [range_cond_ok]. *)
Definition build_prelude (b : FileResponseBuilder) (file : ResolvedFile F)
  : Response G + (list (bytes * bytes) * bool) :=
  let modified :=
    match rf_modified file with
    | Some v =>
        match duration_since_epoch v with
        | Some d => if MIN_VALID_MTIME <=? d then Some v else None
        | None => None
        end
    | None => None
    end in
  let range_cond_ok := match if_range b with None => true | Some _ => false end in
  match modified with
  | None => inr ([], range_cond_ok)
  | Some m =>
      let step1 :=
        match duration_since_epoch m with
        | Some modified_unix =>
            match option_map duration_since_epoch (if_modified_since b) with
            | Some (Some _) => inl (mk_response 304 [] BodyEmpty)
            | _ =>
                let etag := bytes_of "w/" ++ [QUOTE] ++ fmt_hex (rf_size file) ++ bytes_of "-" ++
                            fmt_hex (modified_unix / NANOS_PER_SEC) ++ bytes_of "." ++
                            fmt_hex (modified_unix mod NANOS_PER_SEC) ++ [QUOTE] in
                let rco := match if_range b with
                           | Some v => if bytes_eqb v etag then true else range_cond_ok
                           | None => range_cond_ok
                           end in
                inr ([(bytes_of "etag", etag)], rco)
            end
        | None => inr ([], range_cond_ok)
        end in
      match step1 with
      | inl r => inl r
      | inr (hs, rco) =>
          let last_modified_formatted := fmt_http_date m in
          let rco' := match if_range b with
                      | Some v => if bytes_eqb v last_modified_formatted then true else rco
                      | None => rco
                      end in
          inr (hs ++ [(bytes_of "last-modified", last_modified_formatted);
                      (bytes_of "accept-ranges", bytes_of "bytes")], rco')
      end
  end.

(** [FileResponseBuilder::build]; [boundary] is the 60 characters the
    builder draws from [BOUNDARY_CHARS] with its random number generator. *)
Definition build (b : FileResponseBuilder) (file : ResolvedFile F) (boundary : bytes)
  : Response G :=
  match build_prelude b file with
  | inl r => r
  | inr (hs0, range_cond_ok) =>
      let hs := hs0 ++ match cache_headers b with
                       | Some seconds =>
                           [(bytes_of "cache-control",
                             bytes_of "public, max-age=" ++ fmt_dec seconds)]
                       | None => []
                       end in
      if is_head b then
        mk_response 200 (hs ++ [(bytes_of "content-length", fmt_dec (rf_size file))]) BodyEmpty
      else
        let ranges :=
          match range b with
          | Some r =>
              if range_cond_ok then
                match http_range_parse r (rf_size file) with
                | RangeOk rs => Some (inl rs)
                | NoOverlap => Some (inr tt)
                | InvalidRange => None
                end
              else None
          | None => None
          end in
        let full :=
          let hs1 := hs ++ [(bytes_of "content-length", fmt_dec (rf_size file))] in
          let hs2 := hs1 ++ match rf_content_type file with
                            | Some ct => [(bytes_of "content-type", ct)]
                            | None => []
                            end in
          let hs3 := hs2 ++ match rf_encoding file with
                            | Some e => [(bytes_of "content-encoding", to_header_value e)]
                            | None => []
                            end in
          mk_response 200 hs3
            (BodyFull (fbs_new_with_limit (into_file_access (rf_handle file)) (rf_size file))) in
        match ranges with
        | Some (inr _) => mk_response 416 hs BodyEmpty
        | Some (inl [single_span]) =>
            let hs' := hs ++ [(bytes_of "content-range", content_range_header single_span (rf_size file));
                              (bytes_of "content-length", fmt_dec (range_length single_span))] in
            mk_response 206 hs'
              (BodyRange (fbsr_new (into_file_access (rf_handle file)) single_span))
        | Some (inl ((_ :: _ :: _) as rs)) =>
            let hs' := hs ++ [(bytes_of "content-type",
                               bytes_of "multipart/byteranges; boundary=" ++ boundary)] in
            let s0 := fbsm_new (into_file_access (rf_handle file)) rs boundary (rf_size file) in
            let s := match rf_content_type file with
                     | Some ct => set_content_type s0 ct
                     | None => s0
                     end in
            mk_response 206 (hs' ++ [(bytes_of "content-length", fmt_dec (compute_length s))])
              (BodyMultiRange s)
        | Some (inl []) | None => full
        end
  end.

End Builder.

(* ------------------------------------------------------------------ *)
(** ** Requests, src/resolve.rs, src/response_builder.rs, src/service.rs *)

Definition COMMA : Z := 44.
Definition SEMICOLON : Z := 59.
Definition QUESTION : Z := 63.

(** [AcceptEncoding::none] and [AcceptEncoding::all]. *)
Definition accept_none : AcceptEncoding := mk_accept_encoding false false false.
Definition accept_all : AcceptEncoding := mk_accept_encoding true true true.

(** [impl BitAnd for AcceptEncoding]. *)
Definition accept_and (a b : AcceptEncoding) : AcceptEncoding :=
  mk_accept_encoding (gzip a && gzip b) (br a && br b) (zstd a && zstd b).

(** [str::split] on a one-byte separator: empty pieces are kept. *)
Fixpoint split_on (sep : Z) (s : bytes) : list bytes :=
  match s with
  | [] => [[]]
  | c :: rest =>
      if c =? sep then [] :: split_on sep rest
      else match split_on sep rest with
           | [] => [[c]]
           | p :: ps => (c :: p) :: ps
           end
  end.

(** [char::is_whitespace] on the characters of an ASCII string. *)
Definition is_ascii_whitespace (c : Z) : bool := ((9 <=? c) && (c <=? 13)) || (c =? 32).

Fixpoint trim_start (s : bytes) : bytes :=
  match s with
  | c :: rest => if is_ascii_whitespace c then trim_start rest else s
  | [] => []
  end.

(** [str::trim] on an ASCII string. *)
Definition trim (s : bytes) : bytes := rev (trim_start (rev (trim_start s))).

(** The body of the loop of [AcceptEncoding::from_header_value]. *)
Definition accept_token (res : AcceptEncoding) (enc : bytes) : AcceptEncoding :=
  let name := trim (hd [] (split_on SEMICOLON enc)) in
  if bytes_eqb name (bytes_of "gzip") then mk_accept_encoding true (br res) (zstd res)
  else if bytes_eqb name (bytes_of "br") then mk_accept_encoding (gzip res) true (zstd res)
  else if bytes_eqb name (bytes_of "zstd") then mk_accept_encoding (gzip res) (br res) true
  else res.

(** [AcceptEncoding::from_header_value]. *)
Definition from_header_value (value : bytes) : AcceptEncoding :=
  match header_to_str value with
  | Some v => fold_left accept_token (split_on COMMA v) accept_none
  | None => accept_none
  end.

(** [map_open_err]. *)
Definition map_open_err {F} (err : IoErrorKind) : result (ResolveResult F) :=
  match err with
  | NotFoundKind => Ok NotFound
  | PermissionDeniedKind => Ok PermissionDenied
  | _ => Err err
  end.

(** [ResolveParams]; a [PathBuf] is held as its bytes here. *)
Record ResolveParams := mk_resolve_params {
  rp_path : bytes;
  rp_is_dir_request : bool;
  rp_accept_encoding : AcceptEncoding
}.

(** [Resolver]: the opener is a section variable below; [rewrite] is the
    optional user callback. *)
Record Resolver := mk_resolver {
  allowed_encodings : AcceptEncoding;
  rewrite : option (ResolveParams -> result ResolveParams)
}.

(** [PathBuf::push] on a Unix target: an absolute path replaces the
    buffer, otherwise one separator is added when the buffer is nonempty
    and does not end in one. *)
Definition pathbuf_push_bytes (p x : bytes) : bytes :=
  let join := match p with
              | [] => x
              | _ => if last p 0 =? SLASH then p ++ x else p ++ SLASH :: x
              end in
  match x with
  | c :: _ => if c =? SLASH then x else join
  | [] => join
  end.

(** [Component::as_os_str]. *)
Definition component_bytes (c : Component) : bytes :=
  match c with
  | Prefix p => p
  | RootDir => [SLASH]
  | CurDir => [DOT]
  | ParentDir => [DOT; DOT]
  | Normal x => x
  end.

(** The redirect target built in [resolve_path]: ['/'], then each
    component's [to_string_lossy] followed by ['/']. *)
Definition redirect_target (path : bytes) : bytes :=
  SLASH :: concat (map (fun c => utf8_lossy (component_bytes c) ++ [SLASH]) (components path)).

(** [http::Method]. *)
Inductive Method :=
| OPTIONS | GET | POST | PUT | DELETE | HEAD | TRACE | CONNECT | PATCH
| Extension (name : bytes).

(** The parts of an [http::Request] the crate reads: the method, the
    URI's path and query, and the headers (names in lower case, as a
    [HeaderMap] keeps them). *)
Record Request := mk_request {
  req_method : Method;
  req_path : bytes;
  req_query : option bytes;
  req_headers : list (bytes * bytes)
}.

(** [HeaderMap::get]: the first value under the name. *)
Definition header_get (hs : list (bytes * bytes)) (name : bytes) : option bytes :=
  option_map snd (find (fun kv => bytes_eqb (fst kv) name) hs).

(** [HeaderValue::try_from] on a [String]: every byte is visible, a tab,
    or at least 128, and none is DEL. *)
Definition header_value_byte (c : Z) : bool := ((32 <=? c) && negb (c =? 127)) || (c =? 9).

(** [ResponseBuilder]. *)
Record ResponseBuilder := mk_response_builder {
  rb_path : bytes;
  rb_query : option bytes;
  file_response_builder : FileResponseBuilder
}.

(** [Static]. *)
Record Static := mk_static {
  resolver : Resolver;
  static_cache_headers : option Z
}.

(** The outcome of [Static::serve]: a response, the resolver's I/O error,
    or the panic of [.expect("unable to build response")]. *)
Inductive ServeOutcome (G : Type) :=
| Served (r : Response G)
| ServeError (e : IoErrorKind)
| Panicked.
Arguments Served {G} _.
Arguments ServeError {G} _.
Arguments Panicked {G}.

Section Serve.
Context {F G : Type} `{FileAccess G}.
(** [FileOpener::open]. *)
Variable open : bytes -> result (FileWithMetadata F).
Variable mime_guess_first : bytes -> option bytes.
Variable set_charset : bytes -> bytes.
Variable into_file_access : F -> G.
Variable http_range_parse : bytes -> Z -> RangeParse.
Variable fmt_http_date : Z -> bytes.
Variable parse_http_date_secs : bytes -> option N.

(** [Resolver::resolve_path]; the sanitized [PathBuf] has [render] as its
    bytes. *)
Definition resolve_path (r : Resolver) (request_path : bytes)
  (accept_encoding : AcceptEncoding) : result (ResolveResult F) :=
  let requested := requested_path_resolve request_path in
  let params0 := mk_resolve_params (render (sanitized requested))
                   (is_dir_request requested) accept_encoding in
  match (match rewrite r with Some rw => rw params0 | None => Ok params0 end) with
  | Err e => Err e
  | Ok params =>
      let path := rp_path params in
      let is_dir_req := rp_is_dir_request params in
      let ae := rp_accept_encoding params in
      match open path with
      | Err e => map_open_err e
      | Ok file =>
          if is_dir_req && negb (fwm_is_dir file) then Ok NotFound
          else if negb is_dir_req && fwm_is_dir file then Ok (IsDirectory (redirect_target path))
          else if negb is_dir_req then resolve_final open mime_guess_first set_charset file path ae
          else
            let path' := pathbuf_push_bytes path (bytes_of "index.html") in
            match open path' with
            | Err e => map_open_err e
            | Ok file' =>
                if fwm_is_dir file' then Ok NotFound
                else resolve_final open mime_guess_first set_charset file' path' ae
            end
      end
  end.

(** [Resolver::resovle_request]. *)
Definition resovle_request (r : Resolver) (req : Request) : result (ResolveResult F) :=
  match req_method req with
  | HEAD | GET =>
      let accept_encoding :=
        accept_and (allowed_encodings r)
          (match header_get (req_headers req) (bytes_of "accept-encoding") with
           | Some v => from_header_value v
           | None => accept_none
           end) in
      resolve_path r (req_path req) accept_encoding
  | _ => Ok MethodNotMatched
  end.

(** [FileResponseBuilder::request_parts]: [request_method], then
    [request_heanders] ([if_modified_since_header], [range_header],
    [if_range]). *)
Definition frb_request_parts (b : FileResponseBuilder) (m : Method)
  (hs : list (bytes * bytes)) : FileResponseBuilder :=
  let b1 := mk_builder (cache_headers b) (match m with HEAD => true | _ => false end)
                       (if_modified_since b) (range b) (if_range b) in
  let b2 := if_modified_since_header parse_http_date_secs b1
              (header_get hs (bytes_of "if-modified-since")) in
  let rng := match header_get hs (bytes_of "range") with
             | Some v => header_to_str v
             | None => None
             end in
  let b3 := mk_builder (cache_headers b2) (is_head b2) (if_modified_since b2) rng (if_range b2) in
  match (match header_get hs (bytes_of "if-range") with
         | Some v => header_to_str v
         | None => None
         end) with
  | Some s => mk_builder (cache_headers b3) (is_head b3) (if_modified_since b3) (range b3) (Some s)
  | None => b3
  end.

(** [ResponseBuilder::new().request(&req)]. *)
Definition response_builder_request (req : Request) : ResponseBuilder :=
  mk_response_builder (req_path req) (req_query req)
    (frb_request_parts (mk_builder None false None None None) (req_method req) (req_headers req)).

(** [ResponseBuilder::cache_headers]. *)
Definition rb_cache_headers (rb : ResponseBuilder) (value : option Z) : ResponseBuilder :=
  let b := file_response_builder rb in
  mk_response_builder (rb_path rb) (rb_query rb)
    (mk_builder value (is_head b) (if_modified_since b) (range b) (if_range b)).

(** [ResponseBuilder::build]; [None] is the [http::Error] of a
    [Location] value that is not a valid header value. *)
Definition response_builder_build (rb : ResponseBuilder) (res : ResolveResult F)
  (boundary : bytes) : option (Response G) :=
  match res with
  | MethodNotMatched => Some (mk_response 400 [] BodyEmpty)
  | NotFound => Some (mk_response 404 [] BodyEmpty)
  | PermissionDenied => Some (mk_response 403 [] BodyEmpty)
  | IsDirectory target =>
      let target' := match rb_query rb with
                     | Some q => target ++ QUESTION :: q
                     | None => target
                     end in
      if forallb header_value_byte target'
      then Some (mk_response 301 [(bytes_of "location", target')] BodyEmpty)
      else None
  | Found file =>
      Some (build into_file_access http_range_parse fmt_http_date
                  (file_response_builder rb) file boundary)
  end.

(** [Static::serve]. *)
Definition serve (st : Static) (req : Request) (boundary : bytes) : ServeOutcome G :=
  match resovle_request (resolver st) req with
  | Err e => ServeError e
  | Ok result =>
      let rb := rb_cache_headers (response_builder_request req) (static_cache_headers st) in
      match response_builder_build rb result boundary with
      | Some r => Served r
      | None => Panicked
      end
  end.

End Serve.

(** [<Body as hyper::body::Body>::poll_frame]. *)
Definition body_poll_frame {G} `{FileAccess G} (b : Body G)
  : Poll (option (result bytes)) * Body G :=
  match b with
  | BodyEmpty => (Ready None, BodyEmpty)
  | BodyFull s => let '(p, s') := poll_next s in (p, BodyFull s')
  | BodyRange s => let '(p, s') := poll_next s in (p, BodyRange s')
  | BodyMultiRange s => let '(p, s') := poll_next s in (p, BodyMultiRange s')
  end.

#[global] Instance body_stream {G} `{FileAccess G} : Stream (Body G) :=
  { poll_next := body_poll_frame }.

(* ------------------------------------------------------------------ *)
(** ** The in-memory file system, src/vfs.rs *)

Definition component_eq_dec (a b : Component) : {a = b} + {a <> b}.
Proof. decide equality; apply list_eq_dec, Z.eq_dec. Defined.

(** [PathBuf]'s [Eq] and [Hash] go through its components. *)
Definition key_eqb (a b : list Component) : bool :=
  if list_eq_dec component_eq_dec a b then true else false.

(** [MemoryFileMap = HashMap<PathBuf, FileWithMetadata<Bytes>>]. *)
Definition MemoryFileMap := list (list Component * FileWithMetadata bytes).

(** [HashMap::get]. *)
Definition map_get (m : MemoryFileMap) (k : list Component) : option (FileWithMetadata bytes) :=
  option_map snd (find (fun kv => key_eqb (fst kv) k) m).

(** [HashMap::insert]: the new entry replaces any under an equal key. *)
Definition map_insert (m : MemoryFileMap) (k : list Component) (v : FileWithMetadata bytes)
  : MemoryFileMap :=
  (k, v) :: filter (fun kv => negb (key_eqb (fst kv) k)) m.

Definition dir_entry : FileWithMetadata bytes := mk_fwm [] 0 None true.

(** [<MemoryFs as Default>::default]. *)
Definition memfs_default : MemoryFileMap := [([], dir_entry)].

(** The loop of [MemoryFs::add] over the parent's components. *)
Definition memfs_add_dir (st : MemoryFileMap * list Component) (c : Component)
  : MemoryFileMap * list Component :=
  let '(files, dir_path) := st in
  match c with
  | Normal x =>
      let dir_path' := dir_path ++ [Normal x] in
      (map_insert files dir_path' dir_entry, dir_path')
  | _ => (files, dir_path)
  end.

(** [MemoryFs::add]. *)
Definition memfs_add (files : MemoryFileMap) (path data : bytes) (modified : option Z)
  : MemoryFileMap :=
  let comps := removelast (components path) in
  let files' := fst (fold_left memfs_add_dir comps (files, [])) in
  map_insert files' (components path)
    (mk_fwm data (Z.of_nat (length data)) modified false).

(** [<MemoryFs as FileOpener>::open]. *)
Definition memfs_open (files : MemoryFileMap) (path : bytes) : result (FileWithMetadata Cursor) :=
  match map_get files (components path) with
  | Some file => Ok (mk_fwm (mk_cursor (fwm_handle file) 0) (fwm_size file)
                            (fwm_modified file) (fwm_is_dir file))
  | None => Err NotFoundKind
  end.

(** Example file systems: a file with a gzip sibling and a directory
    index, and a directory whose name holds a line feed. *)
Definition ex_fs : MemoryFileMap :=
  memfs_add (memfs_add (memfs_add memfs_default (bytes_of "a/b.txt") (bytes_of "hi") None)
                       (bytes_of "a/b.txt.gz") (bytes_of "gz") None)
            (bytes_of "a/index.html") (bytes_of "<p>") None.


(* ================================================================== *)
(** * Proofs *)

(* ------------------------------------------------------------------ *)
(** ** Facts about Unix path parsing *)

Module PathFacts.

Lemma split_slash_no_slash (s : bytes) :
  Forall (fun p => ~ In SLASH p) (split_slash s).
Proof.
  induction s as [|c rest IH]; simpl.
  - constructor; [simpl; tauto | constructor].
  - destruct (c =? SLASH) eqn:E.
    + constructor; [simpl; tauto | exact IH].
    + destruct (split_slash rest) as [|p ps] eqn:Es.
      * constructor; [|constructor]. simpl. intros [H|H]; [|exact H].
        subst; rewrite Z.eqb_refl in E; discriminate.
      * inversion IH; subst. constructor; [|assumption].
        simpl. intros [H|H]; [subst; rewrite Z.eqb_refl in E; discriminate|tauto].
Qed.

Lemma parse_single_good (c : bytes) (x : bytes) :
  ~ In SLASH c -> parse_single_component c = Some (Normal x) -> good_name x.
Proof.
  intros Hns H.
  destruct c as [|d1 [|d2 [|d3 r]]]; simpl in H; try discriminate.
  - destruct (d1 =? DOT) eqn:E; inversion H; subst.
    apply Z.eqb_neq in E.
    repeat split; try discriminate; try assumption.
    intros He; inversion He; contradiction.
  - destruct ((d1 =? DOT) && (d2 =? DOT)) eqn:E; inversion H; subst.
    repeat split; try discriminate; try assumption.
    intros He; inversion He; subst. rewrite !Z.eqb_refl in E; discriminate.
  - inversion H; subst. repeat split; try discriminate; assumption.
Qed.

Lemma parse_body_normal_good (s x : bytes) :
  In (Normal x) (parse_body s) -> good_name x.
Proof.
  unfold parse_body. intros H. apply in_flat_map in H as [c [Hc Hx]].
  pose proof (split_slash_no_slash s) as HF. rewrite Forall_forall in HF.
  destruct (parse_single_component c) eqn:E; [|destruct Hx].
  destruct Hx as [Hx|[]]; subst.
  eapply parse_single_good; [apply HF; exact Hc | exact E].
Qed.

Lemma components_normal_good (s x : bytes) :
  In (Normal x) (components s) -> good_name x.
Proof.
  unfold components. destruct s as [|c rest]; [intros []|].
  destruct (c =? SLASH).
  - intros [H|H]; [discriminate|]. eapply parse_body_normal_good; exact H.
  - destruct (include_cur_dir (c :: rest)).
    + intros [H|H]; [discriminate|]. eapply parse_body_normal_good; exact H.
    + apply parse_body_normal_good.
Qed.

Lemma sanitize_fold_forall (Q : bytes -> Prop) (cs : list Component) (acc : list bytes) :
  Forall Q acc ->
  (forall x, In (Normal x) cs -> Q x) ->
  Forall Q (fold_left sanitize_step cs acc).
Proof.
  revert acc. induction cs as [|c cs IH]; intros acc Hacc Hcs; simpl; [exact Hacc|].
  apply IH; [|intros x Hx; apply Hcs; right; exact Hx].
  destruct c; simpl; try exact Hacc.
  - unfold pathbuf_pop. clear -Hacc. induction acc as [|a acc IHa]; simpl; [constructor|].
    inversion Hacc; subst. destruct acc; [constructor|]. constructor; auto.
  - destruct (forallb is_normal (components x)); [|exact Hacc].
    unfold pathbuf_push. apply Forall_app; split; [exact Hacc|].
    constructor; [apply Hcs; left; reflexivity | constructor].
Qed.

Lemma sanitize_path_good (s : bytes) : Forall good_name (sanitize_path s).
Proof.
  unfold sanitize_path. apply sanitize_fold_forall; [constructor|].
  apply components_normal_good.
Qed.

Lemma split_slash_app (x r : bytes) :
  ~ In SLASH x -> split_slash (x ++ SLASH :: r) = x :: split_slash r.
Proof.
  induction x as [|c x IH]; intros Hx; simpl.
  - reflexivity.
  - destruct (c =? SLASH) eqn:E.
    + apply Z.eqb_eq in E; subst. exfalso; apply Hx; left; reflexivity.
    + rewrite IH by (intros H; apply Hx; right; exact H). reflexivity.
Qed.

Lemma split_slash_single (x : bytes) : ~ In SLASH x -> split_slash x = [x].
Proof.
  induction x as [|c x IH]; intros Hx; simpl; [reflexivity|].
  destruct (c =? SLASH) eqn:E.
  - apply Z.eqb_eq in E; subst. exfalso; apply Hx; left; reflexivity.
  - rewrite IH by (intros H; apply Hx; right; exact H). reflexivity.
Qed.

Lemma split_slash_render (p : list bytes) :
  p <> [] -> Forall (fun x => ~ In SLASH x) p -> split_slash (render p) = p.
Proof.
  induction p as [|x p IH]; intros Hne Hp; [congruence|].
  inversion Hp; subst. destruct p as [|y p].
  - simpl. apply split_slash_single; assumption.
  - change (render (x :: y :: p)) with (x ++ SLASH :: render (y :: p)).
    rewrite split_slash_app by assumption. rewrite IH; [reflexivity|discriminate|assumption].
Qed.

Lemma parse_single_good_name (x : bytes) :
  good_name x -> parse_single_component x = Some (Normal x).
Proof.
  intros [Hne [Hs [H1 H2]]].
  destruct x as [|d1 [|d2 [|d3 r]]]; simpl; [congruence| | |reflexivity].
  - destruct (d1 =? DOT) eqn:E; [apply Z.eqb_eq in E; subst; congruence|reflexivity].
  - destruct ((d1 =? DOT) && (d2 =? DOT)) eqn:E; [|reflexivity].
    apply andb_true_iff in E as [E1 E2]. apply Z.eqb_eq in E1, E2; subst; congruence.
Qed.

Lemma flat_map_parse_good (q : list bytes) :
  Forall good_name q ->
  flat_map (fun c => match parse_single_component c with
                     | Some x => [x]
                     | None => []
                     end) q = map Normal q.
Proof.
  induction q as [|x q IH]; intros Hq; simpl; [reflexivity|].
  inversion Hq; subst. rewrite parse_single_good_name by assumption.
  simpl. f_equal. apply IH; assumption.
Qed.

Lemma parse_body_render (p : list bytes) :
  Forall good_name p -> parse_body (render p) = map Normal p.
Proof.
  intros Hp. destruct p as [|x p']; [reflexivity|].
  unfold parse_body. rewrite split_slash_render.
  - apply flat_map_parse_good; exact Hp.
  - discriminate.
  - eapply Forall_impl; [|exact Hp]. intros a [_ [H _]]; exact H.
Qed.

Lemma include_cur_dir_good (x rest : bytes) :
  good_name x -> (rest = [] \/ exists r, rest = SLASH :: r) ->
  include_cur_dir (x ++ rest) = false.
Proof.
  intros [Hne [Hs [H1 H2]]] Hrest.
  destruct x as [|d [|c x]]; [congruence| |].
  - assert (Hd : (d =? DOT) = false)
      by (apply Z.eqb_neq; intros ->; congruence).
    destruct Hrest as [->|[r ->]]; simpl; rewrite Hd; reflexivity.
  - assert (Hc : (c =? SLASH) = false)
      by (apply Z.eqb_neq; intros ->; apply Hs; right; left; reflexivity).
    simpl. rewrite Hc, andb_false_r. reflexivity.
Qed.

Lemma components_render (p : list bytes) :
  Forall good_name p -> components (render p) = map Normal p.
Proof.
  intros Hp. rewrite <- parse_body_render by exact Hp.
  destruct p as [|x p]; [reflexivity|].
  inversion Hp as [|? ? Hx Hp']; subst.
  assert (Hr : exists rest : bytes, render (x :: p) = x ++ rest /\
                 (rest = [] \/ exists r, rest = SLASH :: r)).
  { destruct p as [|y p].
    - exists []. rewrite app_nil_r. split; [reflexivity|left; reflexivity].
    - eexists. split; [reflexivity|right; eexists; reflexivity]. }
  destruct Hr as [rest [Hr Hrest]]. rewrite Hr.
  pose proof (include_cur_dir_good x rest Hx Hrest) as Hcd.
  destruct Hx as [Hne [Hs _]].
  destruct x as [|c x]; [congruence|]. unfold components.
  change ((c :: x) ++ rest) with (c :: x ++ rest) in *.
  destruct (c =? SLASH) eqn:Ec.
  { apply Z.eqb_eq in Ec; subst. exfalso; apply Hs; left; reflexivity. }
  rewrite Ec, Hcd. reflexivity.
Qed.

Lemma sanitize_fold_normals (p acc : list bytes) :
  Forall good_name p -> fold_left sanitize_step (map Normal p) acc = acc ++ p.
Proof.
  revert acc. induction p as [|x p IH]; intros acc Hp; simpl; [rewrite app_nil_r; reflexivity|].
  inversion Hp; subst.
  assert (Hx : components x = [Normal x])
    by (change x with (render [x]); apply components_render; constructor; [assumption|constructor]).
  rewrite Hx. simpl. unfold pathbuf_push. rewrite IH by assumption.
  rewrite <- app_assoc. reflexivity.
Qed.

Lemma resolve_fold_normals (p root : list bytes) :
  fold_left resolve_step (map Normal p) root = root ++ p.
Proof.
  revert root. induction p as [|x p IH]; intros root; simpl; [rewrite app_nil_r; reflexivity|].
  rewrite IH, <- app_assoc. reflexivity.
Qed.

End PathFacts.

(* ------------------------------------------------------------------ *)
(** ** Facts about the decoders *)

Module DecodeFacts.
Import PathFacts.

Lemma percent_decode_no_escape (s : bytes) :
  has_percent_escape s = false -> percent_decode s = s.
Proof.
  induction s as [|b rest IH]; intros H; [reflexivity|].
  assert (Hrest : has_percent_escape rest = false).
  { destruct rest as [|h [|l r]]; try reflexivity.
    simpl in H. apply orb_false_iff in H as [_ H]. exact H. }
  simpl. destruct (b =? PERCENT) eqn:Eb; [|rewrite IH by exact Hrest; reflexivity].
  destruct rest as [|h [|l r]]; try (rewrite IH by exact Hrest; reflexivity).
  simpl in H. rewrite Eb in H. simpl in H. apply orb_false_iff in H as [Hhl _].
  unfold is_hex in Hhl.
  destruct (hex_val h), (hex_val l); try discriminate;
    rewrite IH by exact Hrest; reflexivity.
Qed.

Lemma classify_multi_lo (b lo hi : Z) (m : nat) :
  classify b = LeadMulti lo hi m -> 128 <= lo.
Proof.
  unfold classify. intros H.
  repeat match type of H with
         | context [if ?c then _ else _] => destruct c
         end; inversion H; lia.
Qed.

Lemma dfa_step_ok (q q' : option (Z * Z * nat)) (b : Z) :
  dfa_ok q -> utf8_dfa_step q b = Some q' -> dfa_ok q'.
Proof.
  intros Hq H. destruct q as [[[lo hi] m]|]; simpl in H.
  - destruct (in_range lo hi b); [|discriminate].
    destruct m; inversion H; subst; simpl; lia.
  - destruct (classify b) eqn:E; inversion H; subst; simpl; [exact I|].
    eapply classify_multi_lo; exact E.
Qed.

Lemma dfa_run_app (q : option (Z * Z * nat)) (a b : bytes) :
  utf8_dfa_run q (a ++ b) =
  match utf8_dfa_run q a with Some q' => utf8_dfa_run q' b | None => None end.
Proof.
  revert q. induction a as [|c a IH]; intros q; simpl; [reflexivity|].
  destruct (utf8_dfa_step q c); [apply IH|reflexivity].
Qed.

Lemma dfa_step_slash (q q' : option (Z * Z * nat)) :
  dfa_ok q -> utf8_dfa_step q SLASH = Some q' -> q = None /\ q' = None.
Proof.
  intros Hq H. destruct q as [[[lo hi] m]|]; simpl in H.
  - simpl in Hq. unfold in_range in H.
    replace (lo <=? SLASH) with false in H by (symmetry; apply Z.leb_gt; unfold SLASH; lia).
    discriminate.
  - inversion H; split; reflexivity.
Qed.

Lemma split_slash_not_nil (s : bytes) : split_slash s <> [].
Proof.
  destruct s as [|c s]; simpl; [discriminate|].
  destruct (c =? SLASH); [discriminate|]. destruct (split_slash s); discriminate.
Qed.

(** Splitting a well-formed string at ['/'] gives well-formed pieces; the
    first piece is read from the automaton state [q]. *)
Lemma split_slash_valid (s : bytes) (q : option (Z * Z * nat)) :
  dfa_ok q -> utf8_dfa_run q s = Some None ->
  match split_slash s with
  | p :: ps => utf8_dfa_run q p = Some None /\ Forall utf8_valid ps
  | [] => False
  end.
Proof.
  revert q. induction s as [|c rest IH]; intros q Hq Hrun.
  - simpl in *. split; [exact Hrun|constructor].
  - simpl in Hrun. destruct (utf8_dfa_step q c) as [q1|] eqn:Estep; [|discriminate].
    pose proof (dfa_step_ok _ _ _ Hq Estep) as Hq1.
    simpl. destruct (c =? SLASH) eqn:Ec.
    + apply Z.eqb_eq in Ec; subst.
      destruct (dfa_step_slash _ _ Hq Estep) as [-> ->].
      split; [reflexivity|].
      specialize (IH None I Hrun). destruct (split_slash rest) as [|p ps]; [contradiction|].
      destruct IH as [Hp Hps]. constructor; [exact Hp|exact Hps].
    + specialize (IH q1 Hq1 Hrun).
      destruct (split_slash rest) as [|p ps]; [contradiction|].
      destruct IH as [Hp Hps]. split; [simpl; rewrite Estep; exact Hp|exact Hps].
Qed.

Lemma split_slash_all_valid (s : bytes) :
  utf8_valid s -> Forall utf8_valid (split_slash s).
Proof.
  intros Hs. pose proof (split_slash_valid s None I Hs) as H.
  destruct (split_slash s) as [|p ps]; [contradiction|].
  destruct H as [Hp Hps]. constructor; assumption.
Qed.

Lemma parse_body_valid (s x : bytes) :
  utf8_valid s -> In (Normal x) (parse_body s) -> utf8_valid x.
Proof.
  intros Hs H. unfold parse_body in H. apply in_flat_map in H as [c [Hc Hx]].
  pose proof (split_slash_all_valid s Hs) as HF. rewrite Forall_forall in HF.
  destruct (parse_single_component c) as [y|] eqn:E; [|destruct Hx].
  destruct Hx as [Hx|[]]; subst.
  destruct c as [|d1 [|d2 [|d3 r]]]; simpl in E; try discriminate.
  - destruct (d1 =? DOT); inversion E; subst. apply HF; exact Hc.
  - destruct ((d1 =? DOT) && (d2 =? DOT)); inversion E; subst. apply HF; exact Hc.
  - inversion E; subst. apply HF; exact Hc.
Qed.

Lemma valid_ascii_cons (c : Z) (rest : bytes) :
  0 <= c <= 127 -> utf8_valid (c :: rest) -> utf8_valid rest.
Proof.
  intros Hc H. unfold utf8_valid in *. simpl in H. unfold classify in H.
  replace (c <=? 127) with true in H by (symmetry; apply Z.leb_le; lia). exact H.
Qed.

Lemma components_valid (s x : bytes) :
  utf8_valid s -> In (Normal x) (components s) -> utf8_valid x.
Proof.
  intros Hs. unfold components. destruct s as [|c rest]; [intros []|].
  destruct (c =? SLASH) eqn:Ec.
  - apply Z.eqb_eq in Ec; subst. intros [H|H]; [discriminate|].
    eapply parse_body_valid; [|exact H]. eapply valid_ascii_cons; [|exact Hs]. unfold SLASH; lia.
  - destruct (include_cur_dir (c :: rest)) eqn:Ecd.
    + intros [H|H]; [discriminate|].
      eapply parse_body_valid; [|exact H].
      assert (c = DOT).
      { destruct rest as [|c2 r]; simpl in Ecd; [apply Z.eqb_eq; exact Ecd|].
        apply andb_true_iff in Ecd as [E _]. apply Z.eqb_eq; exact E. }
      subst. eapply valid_ascii_cons; [|exact Hs]. unfold DOT; lia.
    + apply parse_body_valid; exact Hs.
Qed.

Lemma render_valid (p : list bytes) : Forall utf8_valid p -> utf8_valid (render p).
Proof.
  induction p as [|x p IH]; intros Hp; [reflexivity|].
  inversion Hp; subst. destruct p as [|y p]; [assumption|].
  change (render (x :: y :: p)) with (x ++ SLASH :: render (y :: p)).
  unfold utf8_valid. rewrite dfa_run_app.
  match goal with H : utf8_valid x |- _ => unfold utf8_valid in H; rewrite H end.
  simpl. apply IH; assumption.
Qed.

Lemma lossy_step_inv (s : lossy_state) (q q' : option (Z * Z * nat)) (pre : bytes) (b : Z) :
  lossy_inv s q pre -> utf8_dfa_step q b = Some q' -> lossy_inv (lossy_step s b) q' (pre ++ [b]).
Proof.
  intros [Hq [Hpre Hpend]] Hstep. unfold lossy_step. rewrite Hq.
  unfold lossy_inv.
  destruct q as [[[lo hi] m]|].
  - simpl in Hstep. destruct (in_range lo hi b) eqn:Er; [|discriminate].
    destruct m as [|m']; inversion Hstep; subst q'; simpl;
      (split; [reflexivity|split; [|intros; first [reflexivity|discriminate]]]).
    + rewrite <- Hpre. reflexivity.
    + rewrite <- Hpre. reflexivity.
  - simpl in Hstep. rewrite Hpend in Hpre by reflexivity. simpl in Hpre.
    unfold lossy_start. destruct (classify b); inversion Hstep; subst q'; simpl;
      (split; [reflexivity|split; [|intros; first [reflexivity|discriminate]]]);
      rewrite Hpre; reflexivity.
Qed.

Lemma lossy_fold_inv (l : bytes) (s : lossy_state) (q q' : option (Z * Z * nat)) (pre : bytes) :
  lossy_inv s q pre -> utf8_dfa_run q l = Some q' ->
  lossy_inv (fold_left lossy_step l s) q' (pre ++ l).
Proof.
  revert s q pre. induction l as [|b l IH]; intros s q pre Hinv Hrun; simpl in *.
  - inversion Hrun; subst. rewrite app_nil_r. exact Hinv.
  - destruct (utf8_dfa_step q b) as [q1|] eqn:E; [|discriminate].
    replace (pre ++ b :: l) with ((pre ++ [b]) ++ l) by (rewrite <- app_assoc; reflexivity).
    eapply IH; [eapply lossy_step_inv; eassumption|exact Hrun].
Qed.

Lemma utf8_lossy_valid_id (l : bytes) : utf8_valid l -> utf8_lossy l = l.
Proof.
  intros Hl. unfold utf8_lossy.
  assert (H0 : lossy_inv (mk_lossy None [] []) None []) by (repeat split).
  destruct (lossy_fold_inv l _ _ _ _ H0 Hl) as [Hq [Hpre Hpend]].
  rewrite Hq. rewrite Hpend in Hpre by reflexivity. exact Hpre.
Qed.

Lemma replacement_valid : utf8_valid REPLACEMENT.
Proof. reflexivity. Qed.

Lemma valid_app (a b : bytes) : utf8_valid a -> utf8_valid b -> utf8_valid (a ++ b).
Proof.
  unfold utf8_valid. intros Ha Hb. rewrite dfa_run_app, Ha. exact Hb.
Qed.

Lemma lossy_start_inv (o : bytes) (b : Z) :
  utf8_valid (rev o) -> out_inv (lossy_start o b).
Proof.
  intros Ho. unfold lossy_start, out_inv.
  destruct (classify b) eqn:E; cbn [lq pend out]; split.
  - change (rev (b :: o)) with (rev o ++ [b]).
    apply valid_app; [exact Ho|]. unfold utf8_valid; simpl; rewrite E; reflexivity.
  - exact I.
  - exact Ho.
  - simpl. rewrite E. reflexivity.
  - rewrite rev_app_distr, rev_involutive. apply valid_app; [exact Ho|exact replacement_valid].
  - exact I.
Qed.

Lemma lossy_step_out_inv (s : lossy_state) (b : Z) : out_inv s -> out_inv (lossy_step s b).
Proof.
  intros [Ho Hp]. unfold lossy_step.
  destruct (lq s) as [[[lo hi] m]|] eqn:Eq; [|apply lossy_start_inv; exact Ho].
  destruct (in_range lo hi b) eqn:Er.
  - unfold out_inv. destruct m as [|m']; cbn [lq pend out]; split.
    + change (rev (b :: pend s ++ out s)) with (rev (pend s ++ out s) ++ [b]).
      rewrite rev_app_distr. rewrite <- app_assoc. apply valid_app; [exact Ho|].
      unfold utf8_valid. rewrite dfa_run_app, Hp. simpl. rewrite Er. reflexivity.
    + exact I.
    + exact Ho.
    + change (rev (b :: pend s)) with (rev (pend s) ++ [b]).
      rewrite dfa_run_app, Hp. simpl. rewrite Er. reflexivity.
  - apply lossy_start_inv. rewrite rev_app_distr, rev_involutive.
    apply valid_app; [exact Ho|exact replacement_valid].
Qed.

Lemma utf8_lossy_valid (l : bytes) : utf8_valid (utf8_lossy l).
Proof.
  unfold utf8_lossy.
  assert (H : forall l s, out_inv s -> out_inv (fold_left lossy_step l s)).
  { induction l0 as [|b l0 IH]; intros s Hs; simpl; [exact Hs|].
    apply IH, lossy_step_out_inv, Hs. }
  destruct (H l (mk_lossy None [] []) (conj eq_refl I)) as [Ho _].
  destruct (lq _); [|exact Ho].
  rewrite rev_app_distr, rev_involutive. apply valid_app; [exact Ho|exact replacement_valid].
Qed.

End DecodeFacts.

(* ------------------------------------------------------------------ *)
(** ** Facts about the body streams *)

Module StreamFacts.

Lemma u64_sub_exact (a b : Z) : 0 <= b <= a -> a < u64_mod -> u64_sub a b = a - b.
Proof. intros. unfold u64_sub. apply Z.mod_small. lia. Qed.

Lemma usize_of_id (x : Z) : 0 <= x < u64_mod -> usize_of x = x.
Proof. intros. unfold usize_of. apply Z.mod_small. lia. Qed.

Lemma u64_mod_pos : 0 < u64_mod.
Proof. unfold u64_mod. lia. Qed.

Lemma total_len_app (a b : list bytes) : total_len (a ++ b) = total_len a + total_len b.
Proof. induction a as [|c a IH]; simpl; [reflexivity|]. rewrite IH. lia. Qed.

Lemma total_len_cons (c : bytes) (o : list bytes) :
  total_len (c :: o) = Z.of_nat (length c) + total_len o.
Proof. reflexivity. Qed.

Lemma total_len_nonneg (o : list bytes) : 0 <= total_len o.
Proof. induction o; simpl; lia. Qed.

Lemma emits_drains {S} `{Stream S} (s s' : S) (o1 o2 : list bytes) :
  emits s o1 s' -> drains s' o2 -> drains s (o1 ++ o2).
Proof.
  induction 1 as [s|s s1 c o s2 Hp He IH]; intros Hd; [exact Hd|].
  simpl. eapply drains_chunk; [exact Hp|]. apply IH; exact Hd.
Qed.

Lemma emits_trans {S} `{Stream S} (s s1 s2 : S) (o1 o2 : list bytes) :
  emits s o1 s1 -> emits s1 o2 s2 -> emits s (o1 ++ o2) s2.
Proof.
  induction 1 as [s|s s' c o s'' Hp He IH]; intros He2; [exact He2|].
  simpl. eapply emits_chunk; [exact Hp|]. apply IH; exact He2.
Qed.

(** A stream is deterministic: it drains to one sequence of chunks. *)
Lemma drains_det {S} `{Stream S} (s : S) (o1 o2 : list bytes) :
  drains s o1 -> drains s o2 -> o1 = o2.
Proof.
  intros H1. revert o2. induction H1 as [s s' Hp|s s' c o Hp Hd IH|s s' o Hp Hd IH];
    intros o2 H2; inversion H2; subst; congruence || (
    match goal with
    | Hq : poll_next ?x = _, Hr : poll_next ?x = _ |- _ =>
        rewrite Hq in Hr; inversion Hr; subst
    end; try f_equal; auto).
Qed.

Lemma drain_drains {S} `{Stream S} (n : nat) (s : S) (o : list bytes) :
  drain n s = Some o -> drains s o.
Proof.
  revert s o. induction n as [|n IH]; intros s o Hd; simpl in Hd; [discriminate|].
  destruct (poll_next s) as [[[[c|e]|]|] s'] eqn:Ep.
  - destruct (drain n s') as [o'|] eqn:E; simpl in Hd; inversion Hd; subst.
    eapply drains_chunk; [exact Ep|apply IH; exact E].
  - discriminate.
  - inversion Hd; subst. eapply drains_end; exact Ep.
  - eapply drains_pending; [exact Ep|apply IH; exact Hd].
Qed.

Section Polls.
Context {F : Type} `{FA : FileAccess F}.

Lemma poll_header (f : F) (ss : FileSeekState) (off : Z) (r : HttpRange)
  (rest : list HttpRange) (first : bool) (b ct : bytes) (fl : Z) :
  fbsm_poll_next (mk_fbsm (mk_fbsr (mk_fbs f 0) ss off) (r :: rest) first false b ct fl) =
  (Ready (Some (Ok (render_multipart_header b ct r first fl))),
   mk_fbsm (mk_fbsr (mk_fbs f (range_length r)) NeedSeek (range_start r)) rest false false b ct fl).
Proof. reflexivity. Qed.

Lemma poll_end (f : F) (ss : FileSeekState) (off : Z) (first : bool) (b ct : bytes) (fl : Z) :
  fbsm_poll_next (mk_fbsm (mk_fbsr (mk_fbs f 0) ss off) [] first false b ct fl) =
  (Ready (Some (Ok (render_multipart_header_end b))),
   mk_fbsm (mk_fbsr (mk_fbs f 0) ss off) [] first true b ct fl).
Proof. reflexivity. Qed.

Lemma poll_completed (s : FileBytesStreamMultiRange F) :
  completed s = true -> fbsm_poll_next s = (Ready None, s).
Proof. intros Hc. unfold fbsm_poll_next. rewrite Hc. reflexivity. Qed.

Lemma poll_reading (f f' : F) (rem off : Z) (iter : list HttpRange) (first : bool)
  (b ct : bytes) (fl : Z) (c : bytes) :
  0 < rem < u64_mod -> poll_read f rem = (Ready (Ok c), f') -> c <> [] ->
  Z.of_nat (length c) <= rem ->
  fbsm_poll_next (mk_fbsm (mk_fbsr (mk_fbs f rem) Reading off) iter first false b ct fl) =
  (Ready (Some (Ok c)),
   mk_fbsm (mk_fbsr (mk_fbs f' (rem - Z.of_nat (length c))) Reading off) iter first false b ct fl).
Proof.
  intros Hr Hread Hc Hl. unfold fbsm_poll_next. cbn [completed file_range file_stream remaining].
  replace (rem =? 0) with false by (symmetry; apply Z.eqb_neq; lia).
  unfold fbsr_poll_next, fbsr_read, fbs_poll_next. cbn [seek_state file_stream fbs_file remaining start_offset].
  rewrite usize_of_id by lia. rewrite Hread.
  rewrite u64_sub_exact by lia.
  destruct c; [contradiction|]. reflexivity.
Qed.

Lemma poll_seeking (f f1 f2 f3 : F) (rem st v : Z) (iter : list HttpRange) (first : bool)
  (b ct : bytes) (fl : Z) (c : bytes) :
  0 < rem < u64_mod ->
  start_seek f st = (Ok tt, f1) -> poll_complete f1 = (Ready (Ok v), f2) ->
  poll_read f2 rem = (Ready (Ok c), f3) -> c <> [] ->
  Z.of_nat (length c) <= rem ->
  fbsm_poll_next (mk_fbsm (mk_fbsr (mk_fbs f rem) NeedSeek st) iter first false b ct fl) =
  (Ready (Some (Ok c)),
   mk_fbsm (mk_fbsr (mk_fbs f3 (rem - Z.of_nat (length c))) Reading st) iter first false b ct fl).
Proof.
  intros Hr Hs Hcpl Hread Hc Hl. unfold fbsm_poll_next. cbn [completed file_range file_stream remaining].
  replace (rem =? 0) with false by (symmetry; apply Z.eqb_neq; lia).
  unfold fbsr_poll_next. cbn [seek_state file_stream fbs_file remaining start_offset].
  rewrite Hs. unfold fbsr_complete. cbn [fbs_file remaining]. rewrite Hcpl.
  unfold fbsr_read, fbs_poll_next. cbn [fbs_file remaining].
  rewrite usize_of_id by lia. rewrite Hread.
  rewrite u64_sub_exact by lia.
  destruct c; [contradiction|]. reflexivity.
Qed.

End Polls.

End StreamFacts.

(** The delivery lemmas below hold for any file backend whose seeks land
    where asked and whose reads within the file return at least one byte
    and at most the bytes asked for. *)
Module Delivery.
Import StreamFacts.

Section Delivery.
Context {F : Type} `{FA : FileAccess F}.
Variable pos_of : F -> Z.
Variable fsize : Z.
Variable good : F -> Prop.
Hypothesis fsize_u64 : fsize < u64_mod.
Hypothesis H_seek : forall (f : F) (n : Z), good f -> 0 <= n <= fsize ->
  exists f1 f2 v, start_seek f n = (Ok tt, f1) /\ poll_complete f1 = (Ready (Ok v), f2) /\
                  good f2 /\ pos_of f2 = n.
Hypothesis H_read : forall (f : F) (len : Z), good f -> 0 < len -> 0 <= pos_of f ->
  pos_of f + len <= fsize ->
  exists c f', poll_read f len = (Ready (Ok c), f') /\
               1 <= Z.of_nat (length c) <= len /\ good f' /\ 0 <= pos_of f' /\
               pos_of f' + (len - Z.of_nat (length c)) <= fsize.

Lemma read_phase (n : nat) : forall (rem : Z) (f : F) (off : Z) (iter : list HttpRange)
  (first : bool) (b ct : bytes) (fl : Z),
  (Z.to_nat rem <= n)%nat -> 0 <= rem -> good f -> 0 <= pos_of f -> pos_of f + rem <= fsize ->
  exists o f', emits (mk_fbsm (mk_fbsr (mk_fbs f rem) Reading off) iter first false b ct fl) o
                     (mk_fbsm (mk_fbsr (mk_fbs f' 0) Reading off) iter first false b ct fl)
               /\ total_len o = rem /\ good f'.
Proof.
  induction n as [|n IH]; intros rem f off iter first b ct fl Hn H0 Hg Hp Hb.
  - assert (rem = 0) by lia. subst. exists [], f. split; [constructor|split; [reflexivity|exact Hg]].
  - destruct (Z.eq_dec rem 0) as [->|Hne].
    + exists [], f. split; [constructor|split; [reflexivity|exact Hg]].
    + destruct (H_read f rem Hg ltac:(lia) Hp Hb) as (c & f1 & Hr & Hl & Hg1 & Hp1 & Hb1).
      destruct (IH (rem - Z.of_nat (length c)) f1 off iter first b ct fl)
        as (o & f' & He & Ht & Hg'); try lia; try exact Hg1.
      exists (c :: o), f'. split; [|split; [simpl; lia|exact Hg']].
      eapply emits_chunk; [|exact He].
      apply poll_reading; try lia; [exact Hr|].
      intros ->; simpl in Hl; lia.
Qed.

(** One range: its first poll seeks and reads, the rest read on. *)
Lemma range_phase (f : F) (r : HttpRange) (iter : list HttpRange) (b ct : bytes) (fl : Z) :
  good f -> range_within fsize r -> 0 < range_length r ->
  exists o f', emits (mk_fbsm (mk_fbsr (mk_fbs f (range_length r)) NeedSeek (range_start r))
                        iter false false b ct fl) o
                     (mk_fbsm (mk_fbsr (mk_fbs f' 0) Reading (range_start r))
                        iter false false b ct fl)
               /\ total_len o = range_length r /\ good f'.
Proof.
  intros Hg (Hs & Hl & Hb) Hpos.
  destruct (H_seek f (range_start r) Hg ltac:(lia)) as (f1 & f2 & v & Hsk & Hc & Hg2 & Hp2).
  destruct (H_read f2 (range_length r) Hg2 Hpos ltac:(lia) ltac:(lia))
    as (c & f3 & Hr & Hlc & Hg3 & Hp3 & Hb3).
  destruct (read_phase (Z.to_nat (range_length r - Z.of_nat (length c)))
              (range_length r - Z.of_nat (length c)) f3 (range_start r) iter false b ct fl)
    as (o & f' & He & Ht & Hg'); try lia; try exact Hg3.
  exists (c :: o), f'. split; [|split; [simpl; lia|exact Hg']].
  eapply emits_chunk; [|exact He].
  eapply poll_seeking; try lia; try eassumption.
  intros ->; simpl in Hlc; lia.
Qed.

(** From any state between parts, the stream drains the rest of the body. *)
Lemma parts_phase (iter : list HttpRange) : forall (f : F) (ss : FileSeekState) (off : Z)
  (first : bool) (b ct : bytes) (fl : Z),
  good f -> Forall (range_within fsize) iter ->
  exists o, drains (mk_fbsm (mk_fbsr (mk_fbs f 0) ss off) iter first false b ct fl) o /\
            total_len o = parts_length b ct fl iter first +
                          Z.of_nat (length (render_multipart_header_end b)).
Proof.
  induction iter as [|r rest IH]; intros f ss off first b ct fl Hg Hall.
  - exists [render_multipart_header_end b]. split.
    + eapply drains_chunk; [exact (poll_end f ss off first b ct fl)|].
      eapply drains_end. apply poll_completed. reflexivity.
    + simpl. lia.
  - inversion Hall as [|? ? Hr Hrest]; subst.
    destruct (Z.eq_dec (range_length r) 0) as [Hz|Hnz].
    + destruct (IH f NeedSeek (range_start r) false b ct fl Hg Hrest) as (o & Hd & Ht).
      exists (render_multipart_header b ct r first fl :: o). split.
      * eapply drains_chunk; [exact (poll_header f ss off r rest first b ct fl)|].
        rewrite Hz. exact Hd.
      * rewrite total_len_cons, Ht. cbn [parts_length]. rewrite Hz. lia.
    + assert (Hpos : 0 < range_length r) by (unfold range_within in Hr; lia).
      destruct (range_phase f r rest b ct fl Hg Hr Hpos)
        as (o1 & f' & He & Ht1 & Hg').
      destruct (IH f' Reading (range_start r) false b ct fl Hg' Hrest) as (o2 & Hd & Ht2).
      exists (render_multipart_header b ct r first fl :: o1 ++ o2). split.
      * eapply drains_chunk; [exact (poll_header f ss off r rest first b ct fl)|].
        eapply emits_drains; [exact He|exact Hd].
      * rewrite total_len_cons, total_len_app, Ht1, Ht2. cbn [parts_length]. lia.
Qed.

(** A fresh multi-range stream drains to a body of [multipart_body_length]. *)
Lemma fresh_drains (f : F) (ranges : list HttpRange) (b ct : bytes) (fl : Z) :
  good f -> Forall (range_within fsize) ranges ->
  exists o, drains (set_content_type (fbsm_new f ranges b fl) ct) o /\
            total_len o = multipart_body_length (set_content_type (fbsm_new f ranges b fl) ct).
Proof.
  intros Hg Hall.
  destruct (parts_phase ranges f NeedSeek 0 true b ct fl Hg Hall) as (o & Hd & Ht).
  exists o. split; [exact Hd|]. rewrite Ht. reflexivity.
Qed.

End Delivery.
End Delivery.

Module LengthFacts.
Import StreamFacts.

Lemma compute_length_loop_mod (b ct : bytes) (fl : Z) (rs : list HttpRange) :
  forall (first : bool) (t : Z), 0 <= t < u64_mod ->
  compute_length_loop b ct fl rs first t = (t + parts_length b ct fl rs first) mod u64_mod.
Proof.
  induction rs as [|r rs IH]; intros first t Ht; cbn [compute_length_loop parts_length].
  - rewrite Z.add_0_r. symmetry. apply Z.mod_small. exact Ht.
  - rewrite IH by (unfold u64_add; apply Z.mod_pos_bound; exact u64_mod_pos).
    unfold u64_add. rewrite Zplus_mod_idemp_l, <- Z.add_assoc, Zplus_mod_idemp_l. f_equal. lia.
Qed.

(** [compute_length] is the exact body length reduced modulo 2^64. *)
Lemma compute_length_mod {F} (s : FileBytesStreamMultiRange F) :
  compute_length s = multipart_body_length s mod u64_mod.
Proof.
  unfold compute_length, multipart_body_length.
  rewrite compute_length_loop_mod by (unfold u64_mod; lia).
  unfold u64_add. rewrite Zplus_mod_idemp_l. f_equal.
Qed.

Lemma parts_length_nonneg (b ct : bytes) (fl : Z) (rs : list HttpRange) :
  Forall (fun r => 0 <= range_length r) rs ->
  forall first, 0 <= parts_length b ct fl rs first.
Proof. induction 1; intros; simpl; [lia|]. specialize (IHForall false). lia. Qed.

End LengthFacts.

Module Backends.

Lemma slice_length (l : bytes) (start end_ : Z) :
  length (slice l start end_) = Nat.min (Z.to_nat (end_ - start)) (length l - Z.to_nat start).
Proof. unfold slice. rewrite length_firstn, length_skipn. reflexivity. Qed.

Lemma file_bytes_length (t : TokioFileAccess) (n : Z) :
  length (file_bytes t n) = Z.to_nat n.
Proof. unfold file_bytes. rewrite length_map, length_seq. reflexivity. Qed.

(** The in-memory backend over data [d]. *)
Lemma cursor_seek (d : bytes) (c : Cursor) (n : Z) :
  cursor_data c = d -> 0 <= n <= Z.of_nat (length d) ->
  exists c1 c2 v, start_seek c n = (Ok tt, c1) /\ poll_complete c1 = (Ready (Ok v), c2) /\
                  cursor_data c2 = d /\ cursor_pos c2 = n.
Proof.
  intros Hd _. exists (mk_cursor (cursor_data c) n), (mk_cursor (cursor_data c) n), n.
  split; [reflexivity|split; [reflexivity|split; [exact Hd|reflexivity]]].
Qed.

Lemma cursor_read (d : bytes) (c : Cursor) (len : Z) :
  cursor_data c = d -> 0 < len -> 0 <= cursor_pos c -> cursor_pos c + len <= Z.of_nat (length d) ->
  exists b c', poll_read c len = (Ready (Ok b), c') /\
               1 <= Z.of_nat (length b) <= len /\ cursor_data c' = d /\ 0 <= cursor_pos c' /\
               cursor_pos c' + (len - Z.of_nat (length b)) <= Z.of_nat (length d).
Proof.
  intros Hd Hl Hp Hb. simpl. unfold cursor_poll_read. rewrite Hd.
  replace (cursor_pos c >? Z.of_nat (length d)) with false
    by (rewrite Z.gtb_ltb; symmetry; apply Z.ltb_ge; lia).
  eexists. eexists. split; [reflexivity|].
  rewrite slice_length.
  replace (cursor_pos c + Z.min (Z.of_nat (length d) - cursor_pos c) len - cursor_pos c)
    with len by lia.
  assert (Z.to_nat len <= length d - Z.to_nat (cursor_pos c))%nat by lia.
  rewrite Nat.min_l by lia. repeat split; try lia. exact Hd.
Qed.

Lemma cursor_read_cap (c c' : Cursor) (len : Z) (b : bytes) :
  0 <= len -> cursor_poll_read c len = (Ready (Ok b), c') -> Z.of_nat (length b) <= len.
Proof.
  unfold cursor_poll_read. intros Hl.
  destruct (cursor_pos c >? Z.of_nat (length (cursor_data c))) eqn:E; intros H; inversion H; subst.
  - simpl. lia.
  - rewrite Z.gtb_ltb, Z.ltb_ge in E. rewrite slice_length. lia.
Qed.

(** The disk backend over a file of [size] bytes, once the operating system
    serves every read in full. *)
Definition tokio_good (size : Z) (t : TokioFileAccess) : Prop :=
  tf_size t = size /\ tf_os t = [].

Lemma tokio_seek (size : Z) (t : TokioFileAccess) (n : Z) :
  tokio_good size t -> 0 <= n <= size ->
  exists t1 t2 v, start_seek t n = (Ok tt, t1) /\ poll_complete t1 = (Ready (Ok v), t2) /\
                  tokio_good size t2 /\ tf_pos t2 = n.
Proof.
  intros Hg _. eexists. eexists. exists n.
  split; [reflexivity|split; [reflexivity|split; [exact Hg|reflexivity]]].
Qed.

Lemma tokio_read (size : Z) (t : TokioFileAccess) (len : Z) :
  tokio_good size t -> 0 < len -> 0 <= tf_pos t -> tf_pos t + len <= size ->
  exists b t', poll_read t len = (Ready (Ok b), t') /\
               1 <= Z.of_nat (length b) <= len /\ tokio_good size t' /\ 0 <= tf_pos t' /\
               tf_pos t' + (len - Z.of_nat (length b)) <= size.
Proof.
  intros [Hs Ho] Hl Hp Hb. simpl. unfold tokio_poll_read, file_poll_read. rewrite Ho.
  set (n := Z.min (Z.min len TOKIO_READ_BUF_SIZE) (Z.max 0 (tf_size t - tf_pos t))).
  assert (Hn : n = Z.min len TOKIO_READ_BUF_SIZE)
    by (unfold n, TOKIO_READ_BUF_SIZE in *; lia).
  assert (Hn1 : 1 <= n <= len) by (rewrite Hn; unfold TOKIO_READ_BUF_SIZE; lia).
  destruct (file_bytes t n) as [|x xs] eqn:Ef.
  - exfalso. pose proof (file_bytes_length t n) as L. rewrite Ef in L. simpl in L. lia.
  - eexists. eexists. split; [reflexivity|].
    rewrite <- Ef, file_bytes_length. unfold tokio_good, tokio_advance. cbn [tf_size tf_os tf_pos].
    split; [lia|split; [split; [exact Hs|reflexivity]|lia]].
Qed.

Lemma tokio_read_cap (t t' : TokioFileAccess) (len : Z) (b : bytes) :
  0 <= len -> tokio_poll_read t len = (Ready (Ok b), t') -> Z.of_nat (length b) <= len.
Proof.
  intros Hl. unfold tokio_poll_read, file_poll_read.
  destruct (tf_os t) as [|[k| |] os]; cbn zeta.
  - destruct (file_bytes t _) as [|x xs] eqn:Ef; intros H; inversion H; subst; [simpl; lia|].
    rewrite <- Ef, file_bytes_length. unfold TOKIO_READ_BUF_SIZE. lia.
  - destruct (file_bytes t _) as [|x xs] eqn:Ef; intros H; inversion H; subst; [simpl; lia|].
    rewrite <- Ef, file_bytes_length. unfold TOKIO_READ_BUF_SIZE. lia.
  - intros H; inversion H.
  - intros H; inversion H.
Qed.

End Backends.

Module PollFacts.
Import StreamFacts.

Lemma poll_n_S {S} `{Stream S} (n : nat) (s : S) :
  snd (poll_n (Datatypes.S n) s) = snd (poll_n n (snd (poll_next s))).
Proof. simpl. destruct (poll_next s) as [p s']. simpl. destruct (poll_n n s'). reflexivity. Qed.

Section Multi.
Context {F : Type} `{FA : FileAccess F}.

(** A poll keeps the boundary, the content type and the file length, and
    takes at most one range off the iterator. *)
Lemma fbsm_poll_keeps (s : FileBytesStreamMultiRange F) :
  let s' := snd (fbsm_poll_next s) in
  boundary s' = boundary s /\ content_type s' = content_type s /\
  file_length s' = file_length s /\
  exists k, (k <= 1)%nat /\ range_iter s' = skipn k (range_iter s).
Proof.
  unfold fbsm_poll_next.
  destruct (completed s); [repeat split; exists 0%nat; split; [lia|reflexivity]|].
  destruct (remaining (file_stream (file_range s)) =? 0).
  - destruct (range_iter s) as [|r rest] eqn:E.
    + repeat split. exists 0%nat. split; [lia|reflexivity].
    + repeat split. exists 1%nat. split; [lia|reflexivity].
  - destruct (fbsr_poll_next (file_range s)) as [p fr'].
    repeat split. exists 0%nat. split; [lia|reflexivity].
Qed.

Lemma poll_n_keeps (n : nat) : forall (s : FileBytesStreamMultiRange F),
  let s' := snd (poll_n n s) in
  boundary s' = boundary s /\ content_type s' = content_type s /\
  file_length s' = file_length s /\
  exists k, (k <= n)%nat /\ range_iter s' = skipn k (range_iter s).
Proof.
  induction n as [|n IH]; intros s; simpl.
  - repeat split. exists 0%nat. split; [lia|reflexivity].
  - pose proof (fbsm_poll_keeps s) as (Hb & Hc & Hf & k & Hk & Hi).
    destruct (fbsm_poll_next s) as [p s1] eqn:E1. simpl in *.
    specialize (IH s1).
    destruct (poll_n n s1) as [ps s2] eqn:E2. simpl in *.
    destruct IH as (Hb' & Hc' & Hf' & k' & Hk' & Hi').
    repeat split; try congruence.
    exists (k' + k)%nat. split; [lia|]. rewrite Hi', Hi, skipn_skipn. reflexivity.
Qed.

(** The first poll of a fresh stream emits the first part header. *)
Lemma fresh_first_poll (f : F) (r : HttpRange) (rest : list HttpRange) (b ct : bytes) (fl : Z) :
  range_iter (snd (fbsm_poll_next (set_content_type (fbsm_new f (r :: rest) b fl) ct))) = rest.
Proof. reflexivity. Qed.

Lemma poll_n_fresh (f : F) (ranges : list HttpRange) (b ct : bytes) (fl : Z) (n : nat) :
  ranges <> [] -> (1 <= n)%nat ->
  let s := snd (poll_n n (set_content_type (fbsm_new f ranges b fl) ct)) in
  boundary s = b /\ content_type s = ct /\ file_length s = fl /\
  exists k, (1 <= k)%nat /\ range_iter s = skipn k ranges.
Proof.
  intros Hne Hn. destruct ranges as [|r rest]; [contradiction|].
  destruct n as [|n]; [lia|]. cbv zeta. rewrite poll_n_S.
  set (s1 := snd (poll_next (set_content_type (fbsm_new f (r :: rest) b fl) ct))).
  assert (H1 : range_iter s1 = rest) by exact (fresh_first_poll f r rest b ct fl).
  assert (Hb1 : boundary s1 = b) by reflexivity.
  assert (Hc1 : content_type s1 = ct) by reflexivity.
  assert (Hf1 : file_length s1 = fl) by reflexivity.
  pose proof (poll_n_keeps n s1) as (Hb & Hc & Hf & k & Hk & Hi).
  split; [congruence|split; [congruence|split; [congruence|]]].
  exists (S k). split; [lia|]. rewrite Hi, H1. reflexivity.
Qed.

End Multi.

Lemma header_not_first (b ct : bytes) (r : HttpRange) (fl : Z) :
  render_multipart_header b ct r false fl = CRLF ++ render_multipart_header b ct r true fl.
Proof. reflexivity. Qed.

Lemma header_first_nonempty (b ct : bytes) (r : HttpRange) (fl : Z) :
  (1 <= length (render_multipart_header b ct r true fl))%nat.
Proof. unfold render_multipart_header. simpl. lia. Qed.

Lemma parts_length_not_first (b ct : bytes) (fl : Z) (r : HttpRange) (rest : list HttpRange) :
  parts_length b ct fl (r :: rest) false = 2 + parts_length b ct fl (r :: rest) true.
Proof.
  cbn [parts_length]. rewrite header_not_first, length_app, Nat2Z.inj_add.
  change (Z.of_nat (length CRLF)) with 2. lia.
Qed.

Lemma parts_length_cons_gt (b ct : bytes) (fl : Z) (r : HttpRange) (rest : list HttpRange) :
  0 <= range_length r ->
  parts_length b ct fl rest true < parts_length b ct fl (r :: rest) true.
Proof.
  intros Hr. cbn [parts_length]. pose proof (header_first_nonempty b ct r fl).
  destruct rest as [|r' rest']; [cbn [parts_length]; lia|].
  rewrite parts_length_not_first. lia.
Qed.

Lemma parts_length_skipn_le (b ct : bytes) (fl : Z) (k : nat) : forall rs,
  Forall (fun r => 0 <= range_length r) rs ->
  parts_length b ct fl (skipn k rs) true <= parts_length b ct fl rs true.
Proof.
  induction k as [|k IH]; intros rs Hall; [simpl; lia|].
  destruct rs as [|r rest]; [simpl; lia|].
  inversion Hall; subst. simpl skipn.
  pose proof (IH rest ltac:(assumption)). pose proof (parts_length_cons_gt b ct fl r rest ltac:(assumption)).
  lia.
Qed.

Lemma parts_length_skipn_lt (b ct : bytes) (fl : Z) (k : nat) (rs : list HttpRange) :
  rs <> [] -> (1 <= k)%nat -> Forall (fun r => 0 <= range_length r) rs ->
  parts_length b ct fl (skipn k rs) true < parts_length b ct fl rs true.
Proof.
  intros Hne Hk Hall. destruct rs as [|r rest]; [contradiction|].
  destruct k as [|k]; [lia|]. inversion Hall; subst. simpl skipn.
  pose proof (parts_length_skipn_le b ct fl k rest ltac:(assumption)).
  pose proof (parts_length_cons_gt b ct fl r rest ltac:(assumption)). lia.
Qed.

Lemma chunk_len_nonneg (p : Poll (option (result bytes))) : 0 <= chunk_len p.
Proof. destruct p as [[[c|e]|]|]; simpl; lia. Qed.

Lemma Forall_skipn {A} (P : A -> Prop) (k : nat) : forall (l : list A),
  Forall P l -> Forall P (skipn k l).
Proof.
  induction k as [|k IH]; intros l H; [exact H|].
  destruct l as [|x l]; [constructor|]. inversion H; subst. apply IH. assumption.
Qed.

Lemma emitted_nonneg (ps : list (Poll (option (result bytes)))) : 0 <= emitted ps.
Proof. induction ps as [|p ps IH]; simpl; [lia|]. pose proof (chunk_len_nonneg p). lia. Qed.

Section Budget.
Context {F : Type} `{FA : FileAccess F}.
Hypothesis H_cap : forall (f f' : F) (len : Z) (b : bytes),
  0 <= len -> poll_read f len = (Ready (Ok b), f') -> Z.of_nat (length b) <= len.

Lemma fbs_step (s : FileBytesStream F) :
  0 <= remaining s < u64_mod ->
  chunk_len (fst (fbs_poll_next s)) <= remaining s /\
  remaining (snd (fbs_poll_next s)) = remaining s - chunk_len (fst (fbs_poll_next s)).
Proof.
  intros Hr. unfold fbs_poll_next.
  destruct (poll_read (fbs_file s) (usize_of (remaining s))) as [[[buf|e]|] f'] eqn:E;
    simpl; try lia.
  apply H_cap in E; [|unfold usize_of; apply Z.mod_pos_bound, u64_mod_pos].
  rewrite usize_of_id in E by lia.
  rewrite u64_sub_exact by lia.
  destruct buf; simpl in *; lia.
Qed.

Lemma fbs_poll_n (n : nat) : forall (s : FileBytesStream F),
  0 <= remaining s < u64_mod ->
  let '(ps, s') := poll_n n s in
  chunk_len (fst (poll_next s')) <= remaining s' /\ 0 <= remaining s' /\
  remaining s' + emitted ps = remaining s.
Proof.
  induction n as [|n IH]; intros s Hr; simpl.
  - pose proof (fbs_step s Hr) as [H1 _]. simpl. lia.
  - pose proof (fbs_step s Hr) as [H1 H2].
    destruct (fbs_poll_next s) as [p s1] eqn:E. simpl in H1, H2.
    assert (Hr1 : 0 <= remaining s1 < u64_mod) by (pose proof (chunk_len_nonneg p); lia).
    specialize (IH s1 Hr1).
    destruct (poll_n n s1) as [ps s2]. simpl. destruct IH as (A & B & C).
    change (fst (poll_next s2)) with (fst (fbs_poll_next s2)) in A. lia.
Qed.

End Budget.

End PollFacts.

Module FormatFacts.




End FormatFacts.

Module HeaderFacts.

Lemma split_on_not_nil (sep : Z) (s : bytes) : split_on sep s <> [].
Proof.
  destruct s as [|c rest]; simpl; [discriminate|].
  destruct (c =? sep); [discriminate|]. destruct (split_on sep rest); discriminate.
Qed.

Lemma split_on_app (sep : Z) (a b : bytes) :
  split_on sep (a ++ sep :: b) = split_on sep a ++ split_on sep b.
Proof.
  induction a as [|c a IH]; simpl.
  - rewrite Z.eqb_refl. reflexivity.
  - destruct (c =? sep); [rewrite IH; reflexivity|].
    rewrite IH. pose proof (split_on_not_nil sep a) as Hn.
    destruct (split_on sep a) as [|p ps]; [congruence|]. reflexivity.
Qed.

Lemma split_on_no_sep (sep : Z) (s : bytes) : ~ In sep s -> split_on sep s = [s].
Proof.
  induction s as [|c s IH]; intros Hn; simpl; [reflexivity|].
  destruct (c =? sep) eqn:E.
  - apply Z.eqb_eq in E; subst. exfalso; apply Hn; left; reflexivity.
  - rewrite IH by (intros H; apply Hn; right; exact H). reflexivity.
Qed.

Lemma accept_token_or (res : AcceptEncoding) (enc : bytes) :
  accept_token res enc =
  mk_accept_encoding (gzip res || gzip (accept_token accept_none enc))
                     (br res || br (accept_token accept_none enc))
                     (zstd res || zstd (accept_token accept_none enc)).
Proof.
  destruct res as [g b z]. unfold accept_token.
  destruct (bytes_eqb _ (bytes_of "gzip")); [simpl; rewrite !orb_false_r, orb_true_r; reflexivity|].
  destruct (bytes_eqb _ (bytes_of "br")); [simpl; rewrite !orb_false_r, orb_true_r; reflexivity|].
  destruct (bytes_eqb _ (bytes_of "zstd")); simpl; rewrite !orb_false_r; try rewrite orb_true_r;
    reflexivity.
Qed.

Lemma fold_accept_or (l : list bytes) : forall res,
  fold_left accept_token l res =
  mk_accept_encoding (gzip res || gzip (fold_left accept_token l accept_none))
                     (br res || br (fold_left accept_token l accept_none))
                     (zstd res || zstd (fold_left accept_token l accept_none)).
Proof.
  induction l as [|x l IH]; intros res; simpl.
  - destruct res; simpl; rewrite !orb_false_r; reflexivity.
  - rewrite (IH (accept_token res x)), (IH (accept_token accept_none x)).
    rewrite (accept_token_or res x). simpl. rewrite !orb_assoc. reflexivity.
Qed.

Lemma header_to_str_app (a b : bytes) (c : Z) :
  forallb header_visible (a ++ c :: b) = true ->
  header_to_str (a ++ c :: b) = Some (a ++ c :: b) /\ header_to_str a = Some a /\
  header_to_str b = Some b.
Proof.
  intros H. unfold header_to_str. rewrite H.
  rewrite forallb_app in H. apply andb_true_iff in H as [Ha Hb].
  simpl in Hb. apply andb_true_iff in Hb as [_ Hb]. rewrite Ha, Hb. auto.
Qed.

End HeaderFacts.

Module MemFacts.

Lemma key_eqb_refl (k : list Component) : key_eqb k k = true.
Proof. unfold key_eqb. destruct (list_eq_dec component_eq_dec k k); congruence. Qed.


Lemma map_get_insert_same (m : MemoryFileMap) (k : list Component) (v : FileWithMetadata bytes) :
  map_get (map_insert m k v) k = Some v.
Proof. unfold map_get, map_insert. simpl. rewrite key_eqb_refl. reflexivity. Qed.




End MemFacts.
Module ResolveFacts.

Lemma sanitized_valid (raw : bytes) :
  Forall good_name (sanitized (requested_path_resolve raw)) /\
  Forall utf8_valid (sanitized (requested_path_resolve raw)).
Proof.
  simpl. split; [apply PathFacts.sanitize_path_good|].
  unfold sanitize_path. apply PathFacts.sanitize_fold_forall; [constructor|].
  intros x Hx. eapply DecodeFacts.components_valid; [|exact Hx].
  apply DecodeFacts.utf8_lossy_valid.
Qed.

Lemma redirect_target_render (p : list bytes) :
  Forall good_name p -> Forall utf8_valid p ->
  redirect_target (render p) = SLASH :: concat (map (fun x => x ++ [SLASH]) p).
Proof.
  intros Hg Hv. unfold redirect_target. rewrite PathFacts.components_render by exact Hg.
  f_equal. f_equal. rewrite map_map. apply map_ext_in. intros x Hx.
  simpl. rewrite DecodeFacts.utf8_lossy_valid_id; [reflexivity|].
  rewrite Forall_forall in Hv. apply Hv. exact Hx.
Qed.

Lemma concat_slash_head (p : list bytes) :
  Forall good_name p ->
  firstn 2 (SLASH :: concat (map (fun x => x ++ [SLASH]) p)) <> [SLASH; SLASH].
Proof.
  intros Hg. destruct p as [|x p]; simpl; [discriminate|].
  inversion Hg as [|? ? (Hne & Hs & _) _]; subst.
  destruct x as [|c x]; [congruence|]. simpl. intros He. inversion He; subst.
  apply Hs. left. reflexivity.
Qed.


Lemma map_open_err_ok {F} (e : IoErrorKind) (res : ResolveResult F) :
  map_open_err e = Ok res -> res = NotFound \/ res = PermissionDenied.
Proof. destruct e; simpl; intros H; inversion H; auto. Qed.

Section Resolve.
Context {F : Type}.
Variable open : bytes -> result (FileWithMetadata F).
Variable mime_guess_first : bytes -> option bytes.
Variable set_charset : bytes -> bytes.

Lemma resolve_final_cases (file : FileWithMetadata F) (path : bytes) (ae : AcceptEncoding)
  (res : ResolveResult F) :
  resolve_final open mime_guess_first set_charset file path ae = Ok res ->
  exists f, res = Found f /\
    ((rf_encoding f = None /\ rf_path f = path /\ rf_handle f = fwm_handle file /\
      rf_size f = fwm_size file) \/
     (exists e sib, rf_encoding f = Some e /\ spec_accepts ae e = true /\
        open (path ++ spec_suffix e) = Ok sib /\ rf_path f = path ++ spec_suffix e /\
        rf_handle f = fwm_handle sib /\ rf_size f = fwm_size sib)).
Proof.
  intros H. unfold resolve_final in H. cbv zeta in H.
  destruct (zstd ae) eqn:Ez; [destruct (open (path ++ bytes_of "zst")) as [s|] eqn:Oz|].
  { inversion H; subst. eexists; split; [reflexivity|]. right.
    exists Zstd, s. repeat split; simpl; auto. }
  all: destruct (br ae) eqn:Eb; [destruct (open (path ++ bytes_of ".br")) as [s|] eqn:Ob|].
  all: try (inversion H; subst; eexists; split; [reflexivity|]; right;
            exists Br, s; repeat split; simpl; auto).
  all: destruct (gzip ae) eqn:Eg; [destruct (open (path ++ bytes_of ".gz")) as [s|] eqn:Og|].
  all: try (inversion H; subst; eexists; split; [reflexivity|]; right;
            exists Gzip, s; repeat split; simpl; auto).
  all: inversion H; subst; eexists; split; [reflexivity|]; left; repeat split.
Qed.

Lemma resolve_path_isdir (r : Resolver) (raw : bytes) (ae : AcceptEncoding) (t : bytes) :
  rewrite r = None ->
  resolve_path open mime_guess_first set_charset r raw ae = Ok (IsDirectory t) ->
  is_dir_request (requested_path_resolve raw) = false /\
  (exists f, open (render (sanitized (requested_path_resolve raw))) = Ok f /\
             fwm_is_dir f = true) /\
  t = redirect_target (render (sanitized (requested_path_resolve raw))).
Proof.
  intros Hr H. unfold resolve_path in H. rewrite Hr in H. cbv zeta in H.
  cbn [rp_path rp_is_dir_request rp_accept_encoding] in H.
  set (rp := requested_path_resolve raw) in *.
  destruct (open (render (sanitized rp))) as [f|e] eqn:O.
  2: { apply map_open_err_ok in H as [H|H]; discriminate. }
  destruct (is_dir_request rp) eqn:Ed, (fwm_is_dir f) eqn:Ef; cbn [andb negb] in H.
  - destruct (open (pathbuf_push_bytes _ _)) as [f'|e] eqn:O'.
    + destruct (fwm_is_dir f'); [discriminate|].
      apply resolve_final_cases in H as (g & Hg & _). discriminate.
    + apply map_open_err_ok in H as [H|H]; discriminate.
  - discriminate.
  - inversion H; subst. split; [reflexivity|]. split; [exists f; split; auto|reflexivity].
  - apply resolve_final_cases in H as (g & Hg & _). discriminate.
Qed.

(** The path a [Found] answer is served from. *)
Lemma resolve_path_found (r : Resolver) (raw : bytes) (ae : AcceptEncoding)
  (f : ResolvedFile F) :
  rewrite r = None ->
  resolve_path open mime_guess_first set_charset r raw ae = Ok (Found f) ->
  let rp := requested_path_resolve raw in
  let base := if is_dir_request rp
              then pathbuf_push_bytes (render (sanitized rp)) (bytes_of "index.html")
              else render (sanitized rp) in
  (exists file0, open base = Ok file0 /\ fwm_is_dir file0 = false /\
    ((rf_encoding f = None /\ rf_path f = base /\ rf_handle f = fwm_handle file0 /\
      rf_size f = fwm_size file0) \/
     (exists e sib, rf_encoding f = Some e /\ spec_accepts ae e = true /\
        open (base ++ spec_suffix e) = Ok sib /\ rf_path f = base ++ spec_suffix e /\
        rf_handle f = fwm_handle sib /\ rf_size f = fwm_size sib))).
Proof.
  intros Hr H. unfold resolve_path in H. rewrite Hr in H. cbv zeta in H.
  cbn [rp_path rp_is_dir_request rp_accept_encoding] in H. cbv zeta.
  set (rp := requested_path_resolve raw) in *.
  destruct (open (render (sanitized rp))) as [f0|e] eqn:O.
  2: { apply map_open_err_ok in H as [H|H]; discriminate. }
  destruct (is_dir_request rp) eqn:Ed, (fwm_is_dir f0) eqn:Ef; cbn [andb negb] in H.
  - destruct (open (pathbuf_push_bytes _ _)) as [f'|e] eqn:O'.
    + destruct (fwm_is_dir f') eqn:Ef'; [discriminate|].
      apply resolve_final_cases in H as (g & Hg & Hc). inversion Hg; subst.
      exists f'. split; [reflexivity|]. split; [exact Ef'|exact Hc].
    + apply map_open_err_ok in H as [H|H]; discriminate.
  - discriminate.
  - discriminate.
  - apply resolve_final_cases in H as (g & Hg & Hc). inversion Hg; subst.
    exists f0. split; [exact O|]. split; [exact Ef|exact Hc].
Qed.

End Resolve.

End ResolveFacts.
Module BuildFacts.

Ltac split_matches H :=
  repeat match type of H with
  | context [match ?x with _ => _ end] => destruct x; cbn beta iota in H
  end.

Section BuildFacts.
Context {F G : Type}.
Variable into_file_access : F -> G.
Variable http_range_parse : bytes -> Z -> RangeParse.
Variable fmt_http_date : Z -> bytes.

Lemma build_prelude_inl (b : FileResponseBuilder) (file : ResolvedFile F) (r : Response G) :
  build_prelude fmt_http_date b file = inl r -> r = mk_response 304 [] BodyEmpty.
Proof.
  intros H. unfold build_prelude in H. cbv zeta in H.
  destruct (rf_modified file) as [v|]; [|discriminate].
  destruct (duration_since_epoch v) as [d|]; [|discriminate].
  destruct (MIN_VALID_MTIME <=? d); [|discriminate].
  cbn beta iota in H.
  destruct (duration_since_epoch v) as [mu|]; [|discriminate].
  destruct (option_map duration_since_epoch (if_modified_since b)) as [[x|]|];
    inversion H; reflexivity.
Qed.

Lemma build_prelude_no_ims (b : FileResponseBuilder) (file : ResolvedFile F) :
  if_modified_since b = None ->
  exists hs rco, build_prelude (G:=G) fmt_http_date b file = inr (hs, rco).
Proof.
  intros Hi. unfold build_prelude. cbv zeta. rewrite Hi. cbn [option_map].
  destruct (rf_modified file) as [v|]; [|eauto].
  destruct (duration_since_epoch v) as [d|]; [|eauto].
  destruct (MIN_VALID_MTIME <=? d); [|eauto].
  destruct (duration_since_epoch v); eauto.
Qed.


Lemma build_head (b : FileResponseBuilder) (file : ResolvedFile F) (boundary : bytes) :
  is_head b = true ->
  let r := build into_file_access http_range_parse fmt_http_date b file boundary in
  body r = BodyEmpty /\
  (status r = 304 \/
   (status r = 200 /\ In (bytes_of "content-length", fmt_dec (rf_size file)) (headers r))).
Proof.
  intros Hh. cbv zeta. unfold build.
  destruct (build_prelude fmt_http_date b file) as [r|[hs0 rco]] eqn:E.
  - apply build_prelude_inl in E. subst. split; [reflexivity|left; reflexivity].
  - rewrite Hh. cbn [body status headers]. split; [reflexivity|right; split; [reflexivity|]].
    apply in_app_iff. right. left. reflexivity.
Qed.

Lemma build_full (b : FileResponseBuilder) (file : ResolvedFile F) (boundary : bytes)
  (hs0 : list (bytes * bytes)) (rco : bool) :
  build_prelude (G:=G) fmt_http_date b file = inr (hs0, rco) ->
  is_head b = false -> (range b = None \/ rco = false) ->
  let r := build into_file_access http_range_parse fmt_http_date b file boundary in
  status r = 200 /\
  body r = BodyFull (fbs_new_with_limit (into_file_access (rf_handle file)) (rf_size file)) /\
  In (bytes_of "content-length", fmt_dec (rf_size file)) (headers r).
Proof.
  intros E Hh Hr. cbv zeta. unfold build. rewrite E, Hh.
  assert (Hn : match range b with
               | Some r => if rco then match http_range_parse r (rf_size file) with
                                       | RangeOk rs => Some (inl rs)
                                       | NoOverlap => Some (inr tt)
                                       | InvalidRange => None
                                       end
                           else None
               | None => None
               end = @None (list HttpRange + unit)).
  { destruct Hr as [-> | ->]; [reflexivity|]. destruct (range b); reflexivity. }
  rewrite Hn. cbn [status body headers]. split; [reflexivity|split; [reflexivity|]].
  apply in_app_iff. left. apply in_app_iff. left. apply in_app_iff. right. left. reflexivity.
Qed.

End BuildFacts.

End BuildFacts.
Module CursorFacts.

Lemma slice_len (d : bytes) (p k : Z) :
  0 <= p -> 0 <= k -> p + k <= Z.of_nat (length d) ->
  Z.of_nat (length (slice d p (p + k))) = k.
Proof.
  intros Hp Hk Hb. rewrite Backends.slice_length. rewrite Nat2Z.inj_min.
  rewrite Nat2Z.inj_sub by lia. rewrite !Z2Nat.id by lia. lia.
Qed.

(** One poll of a [FileBytesStream] over a cursor at [p]: the cursor
    never moves, the limit shrinks by what was read. *)
Lemma fbs_cursor_poll (d : bytes) (p L : Z) :
  0 <= p <= Z.of_nat (length d) -> 0 <= L < u64_mod ->
  let k := Z.min (Z.of_nat (length d) - p) L in
  poll_next (mk_fbs (mk_cursor d p) L) =
  (match slice d p (p + k) with [] => Ready None | c => Ready (Some (Ok c)) end,
   mk_fbs (mk_cursor d p) (L - k)).
Proof.
  intros Hp HL. cbv zeta.
  cbn [poll_next fbs_stream]. unfold fbs_poll_next.
  cbn [poll_read cursor_file_access remaining fbs_file].
  rewrite StreamFacts.usize_of_id by lia.
  unfold cursor_poll_read. cbn [cursor_pos cursor_data].
  replace (p >? Z.of_nat (length d)) with false by (symmetry; rewrite Z.gtb_ltb; apply Z.ltb_ge; lia).
  replace (p + Z.min (Z.of_nat (length d) - p) L) with (p + Z.min (Z.of_nat (length d) - p) L)
    by reflexivity.
  rewrite slice_len by lia. rewrite StreamFacts.u64_sub_exact by lia.
  destruct (slice d p (p + Z.min (Z.of_nat (length d) - p) L)); reflexivity.
Qed.

Lemma firstn_all_len (d : bytes) : slice d 0 (0 + Z.of_nat (length d)) = d.
Proof. unfold slice. rewrite Z.sub_0_r, Z.add_0_l, Nat2Z.id. apply firstn_all. Qed.

Lemma fbs_cursor_drains_n (d : bytes) (n : nat) : forall L,
  d <> [] -> 0 <= L < u64_mod -> L / Z.of_nat (length d) = Z.of_nat n ->
  drains (mk_fbs (mk_cursor d 0) L)
    (repeat d n ++
     (if L mod Z.of_nat (length d) =? 0 then []
      else [firstn (Z.to_nat (L mod Z.of_nat (length d))) d])).
Proof.
  assert (Hlen : forall d : bytes, d <> [] -> 0 < Z.of_nat (length d))
    by (intros d0 Hd; destruct d0; [congruence|simpl; lia]).
  induction n as [|n IH]; intros L Hd HL Hq; pose proof (Hlen d Hd) as Hl.
  - assert (HLt : L < Z.of_nat (length d)).
    { destruct (Z_lt_le_dec L (Z.of_nat (length d))) as [H|H]; [exact H|].
      exfalso. assert (1 <= L / Z.of_nat (length d)) by (apply Z.div_le_lower_bound; lia). lia. }
    rewrite Z.mod_small by lia. simpl.
    pose proof (fbs_cursor_poll d 0 L ltac:(lia) HL) as Hp. cbv zeta in Hp.
    rewrite Z.min_r in Hp by lia.
    destruct (Z.eq_dec L 0) as [->|Hne].
    + simpl. eapply drains_end. rewrite Hp. reflexivity.
    + rewrite (proj2 (Z.eqb_neq L 0) Hne).
      assert (Hs : slice d 0 (0 + L) = firstn (Z.to_nat L) d).
      { unfold slice. rewrite Z.sub_0_r, Z.add_0_l. reflexivity. }
      assert (Hsl : Z.of_nat (length (slice d 0 (0 + L))) = L) by (apply slice_len; lia).
      destruct (slice d 0 (0 + L)) as [|c cs] eqn:E; [simpl in Hsl; lia|].
      rewrite <- Hs. eapply drains_chunk; [rewrite Hp; reflexivity|].
      pose proof (fbs_cursor_poll d 0 0 ltac:(lia) ltac:(pose proof StreamFacts.u64_mod_pos; lia))
        as Hp0. cbv zeta in Hp0. rewrite Z.min_r in Hp0 by lia.
      unfold slice in Hp0. simpl in Hp0.
      eapply drains_end. rewrite Z.sub_diag. exact Hp0.
  - assert (HLe : Z.of_nat (length d) <= L).
    { destruct (Z_lt_le_dec L (Z.of_nat (length d))) as [H|H]; [|exact H].
      exfalso. rewrite Z.div_small in Hq by lia. lia. }
    pose proof (fbs_cursor_poll d 0 L ltac:(lia) HL) as Hp. cbv zeta in Hp.
    rewrite Z.sub_0_r, Z.min_l in Hp by lia. rewrite firstn_all_len in Hp.
    destruct d as [|c0 d0] eqn:Ed; [congruence|]. rewrite <- Ed in *.
    simpl repeat. simpl app.
    eapply drains_chunk; [rewrite Hp; subst d; reflexivity|].
    assert (Hq' : (L - Z.of_nat (length d)) / Z.of_nat (length d) = Z.of_nat n).
    { replace (L - Z.of_nat (length d)) with (L + (-1) * Z.of_nat (length d)) by ring.
      rewrite Z.div_add by lia. lia. }
    assert (Hm : (L - Z.of_nat (length d)) mod Z.of_nat (length d) = L mod Z.of_nat (length d)).
    { replace (L - Z.of_nat (length d)) with (L + (-1) * Z.of_nat (length d)) by ring.
      apply Z_mod_plus_full. }
    rewrite <- Hm. apply IH; [exact Hd|lia|exact Hq'].
Qed.

(** A range stream over a cursor sends the range's bytes in one chunk. *)
Lemma fbsr_cursor_drains (d : bytes) (p : Z) (r : HttpRange) :
  0 <= range_start r -> 0 < range_length r ->
  range_start r + range_length r <= Z.of_nat (length d) -> range_length r < u64_mod ->
  drains (fbsr_new (mk_cursor d p) r)
         [slice d (range_start r) (range_start r + range_length r)].
Proof.
  intros Hs Hl Hb Hu.
  pose proof (fbs_cursor_poll d (range_start r) (range_length r) ltac:(lia) ltac:(lia)) as Hp.
  cbv zeta in Hp. rewrite Z.min_r in Hp by lia. rewrite Z.sub_diag in Hp.
  assert (Hsl := slice_len d (range_start r) (range_length r) Hs ltac:(lia) Hb).
  eapply drains_chunk.
  - cbn [poll_next fbsr_stream fbsr_poll_next fbsr_new fbs_new_with_limit seek_state
         start_offset file_stream fbs_file remaining start_seek cursor_file_access].
    unfold fbsr_complete. cbn [poll_complete cursor_file_access fbs_file remaining].
    unfold fbsr_read.
    change (fbs_poll_next (mk_fbs (mk_cursor (cursor_data (mk_cursor d p)) (range_start r))
                                  (range_length r)))
      with (poll_next (mk_fbs (mk_cursor d (range_start r)) (range_length r))).
    rewrite Hp.
    destruct (slice d (range_start r) (range_start r + range_length r)) eqn:E;
      [simpl in Hsl; lia|reflexivity].
  - pose proof (fbs_cursor_poll d (range_start r) 0 ltac:(lia)
                  ltac:(pose proof StreamFacts.u64_mod_pos; lia)) as Hp0.
    cbv zeta in Hp0. rewrite Z.min_r in Hp0 by lia. rewrite Z.add_0_r in Hp0.
    unfold slice in Hp0. rewrite Z.sub_diag in Hp0. simpl in Hp0.
    eapply drains_end. cbn [poll_next fbsr_stream fbsr_poll_next seek_state start_offset file_stream].
    unfold fbsr_read. change (poll_next (mk_fbs (mk_cursor d (range_start r)) 0))
      with (fbs_poll_next (mk_fbs (mk_cursor d (range_start r)) 0)).
    rewrite Hp0. reflexivity.
Qed.

End CursorFacts.
Module ServeFacts.

Lemma body_full_drains {G} `{FileAccess G} (s : FileBytesStream G) (o : list bytes) :
  drains s o -> drains (BodyFull s) o.
Proof.
  induction 1 as [s s' E|s s' c o E _ IH|s s' o E _ IH].
  - eapply drains_end. cbn [poll_next body_stream body_poll_frame]. rewrite E. reflexivity.
  - eapply drains_chunk; [|exact IH]. cbn [poll_next body_stream body_poll_frame].
    rewrite E. reflexivity.
  - eapply drains_pending; [|exact IH]. cbn [poll_next body_stream body_poll_frame].
    rewrite E. reflexivity.
Qed.

Lemma body_empty_drains {G} `{FileAccess G} : drains (@BodyEmpty G) [].
Proof. eapply drains_end. reflexivity. Qed.

(** The whole of an in-memory file, as [build] sends it. *)
Lemma fbs_cursor_whole (d : bytes) :
  Z.of_nat (length d) < u64_mod ->
  drains (fbs_new_with_limit (mk_cursor d 0) (Z.of_nat (length d)))
         (if Nat.eqb (length d) 0 then [] else [d]).
Proof.
  intros Hu. unfold fbs_new_with_limit.
  destruct d as [|c d'] eqn:Ed.
  - simpl. eapply drains_end.
    pose proof (CursorFacts.fbs_cursor_poll [] 0 0 ltac:(simpl; lia)
                  ltac:(pose proof StreamFacts.u64_mod_pos; lia)) as Hp.
    cbv zeta in Hp. rewrite Hp. reflexivity.
  - change (Nat.eqb (length (c :: d')) 0) with false. cbv iota. rewrite <- Ed in *.
    assert (Hl : 0 < Z.of_nat (length d)) by (subst; simpl; lia).
    pose proof (CursorFacts.fbs_cursor_drains_n d 1 (Z.of_nat (length d))
                  ltac:(subst; discriminate) ltac:(lia) ltac:(rewrite Z.div_same; lia)) as Hd.
    rewrite Z_mod_same_full in Hd. simpl in Hd. exact Hd.
Qed.

Section Serving.
Variable mime_guess_first : bytes -> option bytes.
Variable set_charset : bytes -> bytes.
Variable http_range_parse : bytes -> Z -> RangeParse.
Variable fmt_http_date : Z -> bytes.
Variable parse_http_date_secs : bytes -> option N.

Lemma frb_of_request (req : Request) (c : option Z) :
  header_get (req_headers req) (bytes_of "if-modified-since") = None ->
  header_get (req_headers req) (bytes_of "range") = None ->
  let b := file_response_builder
             (rb_cache_headers (response_builder_request parse_http_date_secs req) c) in
  if_modified_since b = None /\ range b = None /\ cache_headers b = c /\
  is_head b = match req_method req with HEAD => true | _ => false end.
Proof.
  intros Hi Hr. cbv zeta. unfold rb_cache_headers, response_builder_request, frb_request_parts.
  cbn [file_response_builder]. rewrite Hi, Hr.
  destruct (match header_get (req_headers req) (bytes_of "if-range") with
            | Some v => header_to_str v | None => None end); repeat split.
Qed.

Lemma resolve_memfs_file (fs0 : MemoryFileMap) (ns : list bytes) (data : bytes)
  (m : option Z) (r : Resolver) (raw : bytes) (ae : AcceptEncoding) :
  rewrite r = None ->
  requested_path_resolve raw = mk_requested_path ns false ->
  gzip ae = false -> br ae = false -> zstd ae = false ->
  resolve_path (memfs_open (memfs_add fs0 (render ns) data m)) mime_guess_first set_charset
    r raw ae =
  Ok (Found (mk_resolved_file (mk_cursor data 0) (render ns) (Z.of_nat (length data)) m
               (option_map set_charset (mime_guess_first (render ns))) None)).
Proof.
  intros Hr Hq Hg Hb Hz. unfold resolve_path. rewrite Hr, Hq. cbv zeta.
  cbn [rp_path rp_is_dir_request rp_accept_encoding sanitized is_dir_request].
  assert (Ho : memfs_open (memfs_add fs0 (render ns) data m) (render ns) =
               Ok (mk_fwm (mk_cursor data 0) (Z.of_nat (length data)) m false)).
  { unfold memfs_open, memfs_add. rewrite MemFacts.map_get_insert_same. reflexivity. }
  rewrite Ho. cbn [andb negb fwm_is_dir].
  unfold resolve_final. rewrite Hg, Hb, Hz. reflexivity.
Qed.

Lemma serve_memfs_file_gen (fs0 : MemoryFileMap) (ns : list bytes) (data : bytes)
  (m : option Z) (st : Static) (req : Request) (boundary : bytes) :
  rewrite (resolver st) = None ->
  requested_path_resolve (req_path req) = mk_requested_path ns false ->
  req_method req = GET \/ req_method req = HEAD ->
  header_get (req_headers req) (bytes_of "accept-encoding") = None ->
  header_get (req_headers req) (bytes_of "if-modified-since") = None ->
  header_get (req_headers req) (bytes_of "range") = None ->
  Z.of_nat (length data) < u64_mod ->
  exists hs b,
    serve (memfs_open (memfs_add fs0 (render ns) data m)) mime_guess_first set_charset
      (fun c => c) http_range_parse fmt_http_date parse_http_date_secs st req boundary =
    Served (mk_response 200 hs b) /\
    In (bytes_of "content-length", fmt_dec (Z.of_nat (length data))) hs /\
    drains b (if (match req_method req with HEAD => true | _ => false end)
                 || Nat.eqb (length data) 0 then [] else [data]).
Proof.
  intros Hr Hq Hm Hae Hims Hrg Hu.
  set (file := mk_resolved_file (mk_cursor data 0) (render ns) (Z.of_nat (length data)) m
                 (option_map set_charset (mime_guess_first (render ns))) None).
  assert (Hres : resovle_request (memfs_open (memfs_add fs0 (render ns) data m))
                   mime_guess_first set_charset (resolver st) req = Ok (Found file)).
  { unfold resovle_request. rewrite Hae.
    destruct Hm as [Hm|Hm]; rewrite Hm;
      (apply resolve_memfs_file; [exact Hr|exact Hq|..];
       destruct (allowed_encodings (resolver st)) as [g b z]; simpl;
       rewrite andb_false_r; reflexivity). }
  unfold serve. rewrite Hres.
  destruct (frb_of_request req (static_cache_headers st) Hims Hrg) as (Hi & Hrn & _ & Hh).
  set (rb := rb_cache_headers (response_builder_request parse_http_date_secs req)
               (static_cache_headers st)) in *.
  set (b := file_response_builder rb) in *.
  cbn [response_builder_build]. fold b.
  destruct (BuildFacts.build_prelude_no_ims (G:=Cursor) fmt_http_date b file Hi) as (hs0 & rco & E).
  destruct (is_head b) eqn:Ehd.
  - assert (HH : req_method req = HEAD)
      by (destruct (req_method req); try discriminate; reflexivity).
    rewrite HH. cbn [orb].
    exists (hs0 ++ match cache_headers b with
                   | Some seconds => [(bytes_of "cache-control", bytes_of "public, max-age=" ++ fmt_dec seconds)]
                   | None => [] end ++
            [(bytes_of "content-length", fmt_dec (rf_size file))]), BodyEmpty.
    split; [|split].
    + unfold build. rewrite E, Ehd. rewrite app_assoc. reflexivity.
    + apply in_app_iff. right. apply in_app_iff. right. left. reflexivity.
    + apply body_empty_drains.
  - destruct (BuildFacts.build_full (fun c => c) http_range_parse fmt_http_date b file boundary
                hs0 rco E Ehd (or_introl Hrn)) as (Hs & Hb & Hc).
    set (r := build (fun c => c) http_range_parse fmt_http_date b file boundary) in *.
    exists (headers r), (body r). split; [|split].
    + clearbody r. destruct r as [st0 h0 b0]. simpl in Hs. subst st0. reflexivity.
    + exact Hc.
    + assert (HG : match req_method req with HEAD => true | _ => false end = false)
        by (destruct Hm as [Hm|Hm]; rewrite Hm in *; [reflexivity|discriminate]).
      rewrite HG, orb_false_l, Hb. apply body_full_drains. apply fbs_cursor_whole. exact Hu.
Qed.

End Serving.

End ServeFacts.

(* ================================================================== *)
(** * Claims *)

(** C1: the sanitized path consists of [Normal] components only: its
    string form parses back to exactly those names (no [..], root, prefix
    or current-dir component), every name is a genuine single component,
    and resolving it under any root only descends from that root. *)
Theorem sanitize_path_only_normal (s : bytes) :
  Forall (fun c => is_normal c = true) (components (render (sanitize_path s))) /\
  components (render (sanitize_path s)) = map Normal (sanitize_path s) /\
  Forall good_name (sanitize_path s) /\
  (forall root : list bytes, resolve_under root (render (sanitize_path s)) = root ++ sanitize_path s).
Proof.
  pose proof (PathFacts.sanitize_path_good s) as Hg.
  pose proof (PathFacts.components_render _ Hg) as Hc.
  split; [|split; [exact Hc|split; [exact Hg|]]].
  - rewrite Hc. clear. induction (sanitize_path s); constructor; auto.
  - intros root. unfold resolve_under. rewrite Hc. apply PathFacts.resolve_fold_normals.
Qed.

(** C7 (counterexample): feeding the string form of a sanitized path back
    through [RequestedPath::resolve] decodes percent escapes a second time:
    ["%2541"] sanitizes to ["%41"], which resolves to ["A"]. *)
Lemma requested_path_resolve_not_idempotent :
  let p := sanitized (requested_path_resolve (bytes_of "%2541")) in
  sanitized (requested_path_resolve (render p)) <> p.
Proof. vm_compute. discriminate. Qed.

(** C7 (amended): [sanitize_path] is idempotent on the string form of its
    own output, and [RequestedPath::resolve] gives the same sanitized path
    back whenever that string form holds no percent escape. *)
Theorem sanitize_path_idempotent (raw : bytes) :
  let p := sanitized (requested_path_resolve raw) in
  sanitize_path (render p) = p /\
  (has_percent_escape (render p) = false ->
   sanitized (requested_path_resolve (render p)) = p).
Proof.
  simpl.
  set (d := decode_percents raw).
  pose proof (PathFacts.sanitize_path_good d) as Hg.
  assert (Hs : sanitize_path (render (sanitize_path d)) = sanitize_path d).
  { unfold sanitize_path at 1. rewrite PathFacts.components_render by exact Hg.
    apply PathFacts.sanitize_fold_normals; exact Hg. }
  split; [exact Hs|]. intros Hesc.
  assert (Hv : Forall utf8_valid (sanitize_path d)).
  { unfold sanitize_path. apply PathFacts.sanitize_fold_forall; [constructor|].
    intros x Hx. eapply DecodeFacts.components_valid; [|exact Hx].
    apply DecodeFacts.utf8_lossy_valid. }
  unfold decode_percents. rewrite DecodeFacts.percent_decode_no_escape by exact Hesc.
  rewrite DecodeFacts.utf8_lossy_valid_id by (apply DecodeFacts.render_valid; exact Hv).
  exact Hs.
Qed.

Lemma sanitize_path_idempotent_witness :
  has_percent_escape (render (sanitized (requested_path_resolve (bytes_of "/a/../b/c.txt"))))
    = false /\
  sanitized (requested_path_resolve
    (render (sanitized (requested_path_resolve (bytes_of "/a/../b/c.txt"))))) =
  sanitized (requested_path_resolve (bytes_of "/a/../b/c.txt")).
Proof.
  assert (H : has_percent_escape
                (render (sanitized (requested_path_resolve (bytes_of "/a/../b/c.txt")))) = false)
    by (vm_compute; reflexivity).
  split; [exact H|].
  exact (proj2 (sanitize_path_idempotent (bytes_of "/a/../b/c.txt")) H).
Defined.

(** C2 (amended).  For any file backend whose seeks land where asked and
    whose reads within the file return between one byte and the bytes asked
    for, a freshly built multi-range stream over ranges inside the file
    drains to end of stream, every run of it emits exactly
    [multipart_body_length] bytes (the rendered part headers, the range
    lengths and the closing boundary), and [compute_length] on the fresh
    stream is that total modulo 2^64 (the u64 accumulator wraps): it equals
    the total whenever the total is below 2^64. *)
Theorem compute_length_exact :
  forall (F : Type) (FA : FileAccess F) (pos_of : F -> Z) (fsize : Z) (good : F -> Prop),
  fsize < u64_mod ->
  (forall (f : F) (n : Z), good f -> 0 <= n <= fsize ->
     exists f1 f2 v, start_seek f n = (Ok tt, f1) /\ poll_complete f1 = (Ready (Ok v), f2) /\
                     good f2 /\ pos_of f2 = n) ->
  (forall (f : F) (len : Z), good f -> 0 < len -> 0 <= pos_of f -> pos_of f + len <= fsize ->
     exists c f', poll_read f len = (Ready (Ok c), f') /\
                  1 <= Z.of_nat (length c) <= len /\ good f' /\ 0 <= pos_of f' /\
                  pos_of f' + (len - Z.of_nat (length c)) <= fsize) ->
  forall (f : F) (ranges : list HttpRange) (b ct : bytes) (fl : Z),
  good f -> Forall (range_within fsize) ranges ->
  let s0 := set_content_type (fbsm_new f ranges b fl) ct in
  (exists outs, drains s0 outs) /\
  forall outs, drains s0 outs ->
    total_len outs = multipart_body_length s0 /\
    compute_length s0 = total_len outs mod u64_mod /\
    (total_len outs < u64_mod -> total_len outs = compute_length s0).
Proof.
  intros F FA pos_of fsize good Hsz Hseek Hread f ranges b ct fl Hg Hall s0. subst s0.
  destruct (Delivery.fresh_drains pos_of fsize good Hsz Hseek Hread f ranges b ct fl Hg Hall)
    as (o & Hd & Ht).
  split; [exists o; exact Hd|].
  intros outs Hd'. rewrite (StreamFacts.drains_det _ _ _ Hd' Hd).
  split; [exact Ht|].
  split; [rewrite LengthFacts.compute_length_mod, <- Ht; reflexivity|]. intros Hlt.
  rewrite LengthFacts.compute_length_mod, <- Ht. symmetry. apply Z.mod_small.
  split; [apply StreamFacts.total_len_nonneg|exact Hlt].
Qed.

Lemma compute_length_exact_witness :
  drains ex_stream ex_outs /\ total_len ex_outs < u64_mod /\
  total_len ex_outs = compute_length ex_stream.
Proof.
  assert (Hd : drains ex_stream ex_outs)
    by (apply (StreamFacts.drain_drains 20); vm_compute; reflexivity).
  assert (Hlt : total_len ex_outs < u64_mod) by (vm_compute; reflexivity).
  split; [exact Hd|split; [exact Hlt|]].
  assert (Hall : Forall (range_within (Z.of_nat (length ex_data))) ex_ranges)
    by (unfold ex_ranges, range_within; repeat constructor; vm_compute; discriminate).
  pose proof (compute_length_exact Cursor cursor_file_access cursor_pos
            (Z.of_nat (length ex_data)) (fun c => cursor_data c = ex_data)
            ltac:(vm_compute; reflexivity)
            (fun f n => Backends.cursor_seek ex_data f n)
            (fun f len => Backends.cursor_read ex_data f len)
            ex_cursor ex_ranges (bytes_of "BND") (bytes_of "text/css") 40
            eq_refl Hall) as Hth.
  exact (proj2 (proj2 (proj2 Hth ex_outs Hd)) Hlt).
Defined.

(** C2, counterexample: on a 2^63 - 1 byte file asked for three times in
    full, the stream emits more than 2^64 bytes while [compute_length]
    reports the total modulo 2^64. *)
Lemma compute_length_wraps :
  exists outs, drains big_stream outs /\ total_len outs <> compute_length big_stream.
Proof.
  assert (Hall : Forall (range_within big_size) big_ranges)
    by (unfold big_ranges, range_within; repeat constructor; vm_compute; discriminate).
  destruct (Delivery.fresh_drains tf_pos big_size (Backends.tokio_good big_size)
              ltac:(vm_compute; reflexivity)
              (fun t n => Backends.tokio_seek big_size t n)
              (fun t len => Backends.tokio_read big_size t len)
              big_file big_ranges (bytes_of "BND") (bytes_of "application/octet-stream")
              big_size (conj eq_refl eq_refl) Hall) as (o & Hd & Ht).
  exists o. split; [exact Hd|]. fold big_stream in Ht. rewrite Ht.
  vm_compute. discriminate.
Qed.

(** C8.  Once a multi-range stream has been polled, [compute_length] only
    counts the ranges not yet started: the iterator has lost at least its
    first range, the result is that of a fresh stream over the remaining
    ranges (whose first part is rendered without the leading CRLF), and it
    differs from the full body length of the fresh stream. *)
Theorem compute_length_after_poll :
  forall (F : Type) (FA : FileAccess F) (f : F) (ranges : list HttpRange) (b ct : bytes)
         (fl : Z) (n : nat) (ps : list (Poll (option (result bytes))))
         (s : FileBytesStreamMultiRange F),
  ranges <> [] -> Forall (fun r => 0 <= range_length r) ranges -> (1 <= n)%nat ->
  poll_n n (set_content_type (fbsm_new f ranges b fl) ct) = (ps, s) ->
  (exists k, (1 <= k)%nat /\ range_iter s = skipn k ranges) /\
  compute_length s = compute_length (set_content_type (fbsm_new f (range_iter s) b fl) ct) /\
  compute_length s <> multipart_body_length (set_content_type (fbsm_new f ranges b fl) ct).
Proof.
  intros F FA f ranges b ct fl n ps s Hne Hall Hn Hp.
  pose proof (PollFacts.poll_n_fresh f ranges b ct fl n Hne Hn) as Hk. cbv zeta in Hk.
  rewrite Hp in Hk. simpl in Hk. destruct Hk as (Hb & Hc & Hf & k & Hk1 & Hi).
  split; [exists k; split; assumption|].
  split.
  - unfold compute_length. rewrite Hb, Hc, Hf. reflexivity.
  - rewrite LengthFacts.compute_length_mod. unfold multipart_body_length.
    rewrite Hb, Hc, Hf, Hi. cbn [boundary content_type file_length range_iter set_content_type fbsm_new].
    pose proof (PollFacts.parts_length_skipn_lt b ct fl k ranges Hne Hk1 Hall) as Hlt.
    assert (Hnn : 0 <= parts_length b ct fl (skipn k ranges) true).
    { apply LengthFacts.parts_length_nonneg. apply PollFacts.Forall_skipn. exact Hall. }
    set (E := Z.of_nat (length (render_multipart_header_end b))).
    assert (HE : 0 <= E) by (unfold E; lia).
    set (P := parts_length b ct fl (skipn k ranges) true) in *.
    set (Q := parts_length b ct fl ranges true) in *.
    destruct (Z_lt_le_dec (Q + E) u64_mod) as [Hs|Hs].
    + rewrite Z.mod_small by lia. lia.
    + pose proof (Z.mod_pos_bound (P + E) u64_mod StreamFacts.u64_mod_pos). lia.
Qed.

Lemma compute_length_after_poll_witness :
  ex_ranges <> [] /\ Forall (fun r => 0 <= range_length r) ex_ranges /\ (1 <= 1)%nat /\
  compute_length (snd (poll_n 1 ex_stream)) <> multipart_body_length ex_stream.
Proof.
  assert (Hne : ex_ranges <> []) by discriminate.
  assert (Hall : Forall (fun r => 0 <= range_length r) ex_ranges)
    by (unfold ex_ranges; repeat constructor; vm_compute; discriminate).
  split; [exact Hne|split; [exact Hall|split; [lia|]]].
  exact (proj2 (proj2 (compute_length_after_poll Cursor cursor_file_access ex_cursor ex_ranges
           (bytes_of "BND") (bytes_of "text/css") 40 1
           (fst (poll_n 1 ex_stream)) (snd (poll_n 1 ex_stream))
           Hne Hall ltac:(lia) ltac:(vm_compute; reflexivity)))).
Defined.

(** C9.  Both file backends return at most the bytes asked for, so in
    [FileBytesStream::poll_next] the chunk about to be subtracted never
    exceeds the remaining budget: after any number of polls the remaining
    budget is the initial limit minus the bytes emitted, it stays
    non-negative, and at most the initial limit has been emitted. *)
Theorem file_bytes_stream_budget :
  (forall (c c' : Cursor) (len : Z) (b : bytes),
     0 <= len -> poll_read c len = (Ready (Ok b), c') -> Z.of_nat (length b) <= len) /\
  (forall (t t' : TokioFileAccess) (len : Z) (b : bytes),
     0 <= len -> poll_read t len = (Ready (Ok b), t') -> Z.of_nat (length b) <= len) /\
  forall (limit : Z) (n : nat), 0 <= limit < u64_mod ->
  (forall c : Cursor,
     let '(ps, s) := poll_n n (fbs_new_with_limit c limit) in
     chunk_len (fst (poll_next s)) <= remaining s /\ 0 <= remaining s /\
     remaining s + emitted ps = limit /\ emitted ps <= limit) /\
  (forall t : TokioFileAccess,
     let '(ps, s) := poll_n n (fbs_new_with_limit t limit) in
     chunk_len (fst (poll_next s)) <= remaining s /\ 0 <= remaining s /\
     remaining s + emitted ps = limit /\ emitted ps <= limit).
Proof.
  split; [exact Backends.cursor_read_cap|split; [exact Backends.tokio_read_cap|]].
  intros limit n Hl. split.
  - intros c. pose proof (@PollFacts.fbs_poll_n Cursor cursor_file_access Backends.cursor_read_cap n
                            (fbs_new_with_limit c limit) Hl) as H.
    destruct (poll_n n (fbs_new_with_limit c limit)) as [ps s].
    destruct H as (A & B & C). cbn [remaining fbs_new_with_limit] in C.
    pose proof (PollFacts.emitted_nonneg ps). repeat split; lia.
  - intros t. pose proof (@PollFacts.fbs_poll_n TokioFileAccess tokio_file_access Backends.tokio_read_cap n
                            (fbs_new_with_limit t limit) Hl) as H.
    destruct (poll_n n (fbs_new_with_limit t limit)) as [ps s].
    destruct H as (A & B & C). cbn [remaining fbs_new_with_limit] in C.
    pose proof (PollFacts.emitted_nonneg ps). repeat split; lia.
Qed.

Lemma file_bytes_stream_budget_witness :
  0 <= 25 < u64_mod /\
  (let '(ps, s) := poll_n 3 (fbs_new_with_limit ex_cursor 25) in
   chunk_len (fst (poll_next s)) <= remaining s /\ 0 <= remaining s /\
   remaining s + emitted ps = 25 /\ emitted ps <= 25).
Proof.
  assert (Hl : 0 <= 25 < u64_mod) by (unfold u64_mod; lia).
  split; [exact Hl|].
  exact (proj1 (proj2 (proj2 file_bytes_stream_budget) 25 3%nat Hl) ex_cursor).
Defined.

(** C3.  When the file's modification time is kept (at least two seconds
    after the epoch) and the request's If-Modified-Since header is visible
    ASCII that parses as an HTTP date, [build] answers 304 with no headers
    and an empty body, whatever the Range, If-Range, HEAD and cache
    settings, and whatever the two times are. *)
Theorem build_not_modified :
  forall (F G : Type) (into_file_access : F -> G) (http_range_parse : bytes -> Z -> RangeParse)
         (fmt_http_date : Z -> bytes) (parse_http_date_secs : bytes -> option N)
         (b : FileResponseBuilder) (v s : bytes) (d : N) (file : ResolvedFile F)
         (m : Z) (boundary : bytes),
  header_to_str v = Some s -> parse_http_date_secs s = Some d ->
  rf_modified file = Some m -> MIN_VALID_MTIME <= m ->
  build into_file_access http_range_parse fmt_http_date
        (if_modified_since_header parse_http_date_secs b (Some v)) file boundary =
  mk_response 304 [] BodyEmpty.
Proof.
  intros F G into http_range_parse fmt parse b v s d file m boundary Hv Hp Hm Hmin.
  unfold build, build_prelude, if_modified_since_header.
  rewrite Hv, Hp, Hm. cbn [option_map if_modified_since if_range].
  unfold MIN_VALID_MTIME, NANOS_PER_SEC in *.
  assert (E1 : duration_since_epoch m = Some m)
    by (unfold duration_since_epoch; replace (0 <=? m) with true by (symmetry; apply Z.leb_le; lia);
        reflexivity).
  assert (E2 : duration_since_epoch (Z.of_N d * 1000000000) = Some (Z.of_N d * 1000000000))
    by (unfold duration_since_epoch;
        replace (0 <=? Z.of_N d * 1000000000) with true by (symmetry; apply Z.leb_le; lia);
        reflexivity).
  assert (E3 : (2 * 1000000000 <=? m) = true) by (apply Z.leb_le; lia).
  cbv zeta. rewrite E1, E3. cbv beta iota. rewrite E1.
  cbn [option_map if_modified_since]. rewrite E2. reflexivity.
Qed.

Lemma build_not_modified_witness :
  let file := mk_resolved_file tt (bytes_of "a.txt") 10 (Some (5 * NANOS_PER_SEC))
                               None None in
  let b := mk_builder None false None (Some (bytes_of "bytes=0-1")) None in
  header_to_str (bytes_of "Sun, 06 Nov 1994 08:49:37 GMT") =
    Some (bytes_of "Sun, 06 Nov 1994 08:49:37 GMT") /\
  build (fun x : unit => ex_cursor) (fun _ _ => InvalidRange) (fun _ => [])
        (if_modified_since_header (fun _ => Some 784111777%N) b
           (Some (bytes_of "Sun, 06 Nov 1994 08:49:37 GMT"))) file (bytes_of "BND") =
  mk_response 304 [] BodyEmpty.
Proof.
  cbv zeta. split; [vm_compute; reflexivity|].
  apply (build_not_modified unit Cursor (fun x : unit => ex_cursor) (fun _ _ => InvalidRange)
           (fun _ => []) (fun _ => Some 784111777%N)
           (mk_builder None false None (Some (bytes_of "bytes=0-1")) None)
           (bytes_of "Sun, 06 Nov 1994 08:49:37 GMT") (bytes_of "Sun, 06 Nov 1994 08:49:37 GMT")
           784111777%N _ (5 * NANOS_PER_SEC) (bytes_of "BND"));
    [vm_compute; reflexivity|reflexivity|reflexivity|unfold MIN_VALID_MTIME, NANOS_PER_SEC; lia].
Defined.



(** C5.  [resolve_final] is the specification's step: the first accepted
    sibling in the order Zstd, Br, Gzip (suffixes "zst", ".br", ".gz"
    appended to the path) that opens is returned with its encoding, its own
    size and the content type guessed from the original path; otherwise the
    original file with no encoding. *)
Theorem resolve_final_refines :
  forall (F : Type) (open : bytes -> result (FileWithMetadata F))
         (mime_guess_first : bytes -> option bytes) (set_charset : bytes -> bytes)
         (file : FileWithMetadata F) (path : bytes) (ae : AcceptEncoding),
  resolve_final open mime_guess_first set_charset file path ae =
  resolve_final_spec open mime_guess_first set_charset file path ae.
Proof.
  intros F open mime set_charset file path [g b z].
  unfold resolve_final, resolve_final_spec. cbn [spec_first_sibling spec_accepts zstd br gzip].
  destruct z; [destruct (open (path ++ spec_suffix Zstd)) as [sib|e] eqn:Ez|];
    try (cbn [spec_suffix] in *; rewrite ?Ez; reflexivity);
    destruct b; [destruct (open (path ++ spec_suffix Br)) as [sib|e'] eqn:Eb|
                |destruct (open (path ++ spec_suffix Br)) as [sib|e'] eqn:Eb|];
    try (cbn [spec_suffix] in *; rewrite ?Ez, ?Eb; reflexivity);
    destruct g; [destruct (open (path ++ spec_suffix Gzip)) as [sib|e''] eqn:Eg| |
                 destruct (open (path ++ spec_suffix Gzip)) as [sib|e''] eqn:Eg| |
                 destruct (open (path ++ spec_suffix Gzip)) as [sib|e''] eqn:Eg| |
                 destruct (open (path ++ spec_suffix Gzip)) as [sib|e''] eqn:Eg| ];
    cbn [spec_suffix] in *; rewrite ?Ez, ?Eb, ?Eg; reflexivity.
Qed.



(* ================================================================== *)
(** * Further properties of the code *)

(** [AcceptEncoding::from_header_value] on a visible header value: the
    encodings of [a,b] are those of [a] together with those of [b]. *)
Theorem from_header_value_comma (a b : bytes) :
  forallb header_visible (a ++ COMMA :: b) = true ->
  let v := from_header_value (a ++ COMMA :: b) in
  gzip v = gzip (from_header_value a) || gzip (from_header_value b) /\
  br v = br (from_header_value a) || br (from_header_value b) /\
  zstd v = zstd (from_header_value a) || zstd (from_header_value b).
Proof.
  intros H. destruct (HeaderFacts.header_to_str_app a b COMMA H) as (H1 & H2 & H3).
  cbv zeta. unfold from_header_value. rewrite H1, H2, H3.
  rewrite HeaderFacts.split_on_app, fold_left_app.
  rewrite (HeaderFacts.fold_accept_or (split_on COMMA b)). simpl. auto.
Qed.

Lemma from_header_value_comma_witness :
  forallb header_visible (bytes_of "gzip;q=1" ++ COMMA :: bytes_of " br") = true /\
  (let v := from_header_value (bytes_of "gzip;q=1" ++ COMMA :: bytes_of " br") in
   gzip v = gzip (from_header_value (bytes_of "gzip;q=1")) ||
            gzip (from_header_value (bytes_of " br")) /\
   br v = br (from_header_value (bytes_of "gzip;q=1")) ||
          br (from_header_value (bytes_of " br")) /\
   zstd v = zstd (from_header_value (bytes_of "gzip;q=1")) ||
            zstd (from_header_value (bytes_of " br"))).
Proof.
  assert (H : forallb header_visible (bytes_of "gzip;q=1" ++ COMMA :: bytes_of " br") = true)
    by (vm_compute; reflexivity).
  split; [exact H|]. exact (from_header_value_comma (bytes_of "gzip;q=1") (bytes_of " br") H).
Defined.

(** [AcceptEncoding::from_header_value]: whatever follows the first [;]
    of an entry is ignored, so [gzip;q=0] enables gzip as [gzip] does. *)
Theorem from_header_value_params (t p : bytes) :
  forallb header_visible (t ++ SEMICOLON :: p) = true ->
  ~ In COMMA (t ++ SEMICOLON :: p) -> ~ In SEMICOLON t ->
  from_header_value (t ++ SEMICOLON :: p) = from_header_value t.
Proof.
  intros H Hc Hs. destruct (HeaderFacts.header_to_str_app t p SEMICOLON H) as (H1 & H2 & _).
  unfold from_header_value. rewrite H1, H2.
  rewrite (HeaderFacts.split_on_no_sep COMMA (t ++ SEMICOLON :: p)) by exact Hc.
  rewrite (HeaderFacts.split_on_no_sep COMMA t)
    by (intros Hin; apply Hc; apply in_app_iff; left; exact Hin).
  simpl fold_left. unfold accept_token.
  rewrite HeaderFacts.split_on_app, (HeaderFacts.split_on_no_sep SEMICOLON t) by exact Hs.
  reflexivity.
Qed.

Lemma from_header_value_params_witness :
  forallb header_visible (bytes_of "gzip" ++ SEMICOLON :: bytes_of "q=0") = true /\
  ~ In COMMA (bytes_of "gzip" ++ SEMICOLON :: bytes_of "q=0") /\
  ~ In SEMICOLON (bytes_of "gzip") /\
  from_header_value (bytes_of "gzip" ++ SEMICOLON :: bytes_of "q=0") =
  from_header_value (bytes_of "gzip").
Proof.
  assert (H1 : forallb header_visible (bytes_of "gzip" ++ SEMICOLON :: bytes_of "q=0") = true)
    by (vm_compute; reflexivity).
  assert (H2 : ~ In COMMA (bytes_of "gzip" ++ SEMICOLON :: bytes_of "q=0"))
    by (vm_compute; intros Hn; lia).
  assert (H3 : ~ In SEMICOLON (bytes_of "gzip")) by (vm_compute; intros Hn; lia).
  split; [exact H1|split; [exact H2|split; [exact H3|]]].
  exact (from_header_value_params (bytes_of "gzip") (bytes_of "q=0") H1 H2 H3).
Defined.

(** [Resolver::resovle_request] without a rewrite: a file served with a
    content encoding has that encoding both allowed by the resolver and
    listed in the request's [Accept-Encoding] header. *)
Theorem resovle_request_encoding {F} (open : bytes -> result (FileWithMetadata F))
  (mime_guess_first : bytes -> option bytes) (set_charset : bytes -> bytes)
  (r : Resolver) (req : Request) (f : ResolvedFile F) (e : Encoding) :
  rewrite r = None ->
  resovle_request open mime_guess_first set_charset r req = Ok (Found f) ->
  rf_encoding f = Some e ->
  spec_accepts (allowed_encodings r) e = true /\
  exists v, header_get (req_headers req) (bytes_of "accept-encoding") = Some v /\
            spec_accepts (from_header_value v) e = true.
Proof.
  intros Hr H He. unfold resovle_request in H.
  assert (Hacc : forall ae, resolve_path open mime_guess_first set_charset r (req_path req) ae
                            = Ok (Found f) -> spec_accepts ae e = true).
  { intros ae Hp.
    destruct (ResolveFacts.resolve_path_found open mime_guess_first set_charset r
                (req_path req) ae f Hr Hp) as (file0 & _ & _ & Hc).
    destruct Hc as [(Hn & _)|(e' & sib & He' & Ha & _)]; [congruence|].
    rewrite He in He'. inversion He'; subst. exact Ha. }
  destruct (req_method req); try discriminate; apply Hacc in H;
  destruct (header_get (req_headers req) (bytes_of "accept-encoding")) as [v|];
  destruct (allowed_encodings r) as [g b z]; destruct e; simpl in H |- *;
  try (rewrite andb_false_r in H; discriminate);
  apply andb_true_iff in H as [H1 H2]; (split; [exact H1|exists v; split; [reflexivity|exact H2]]).
Qed.

Lemma resovle_request_encoding_witness :
  let req := mk_request GET (bytes_of "/a/b.txt") None
               [(bytes_of "accept-encoding", bytes_of "br, gzip")] in
  let f := mk_resolved_file (mk_cursor (bytes_of "gz") 0) (bytes_of "a/b.txt.gz") 2 None None
             (Some Gzip) in
  rewrite (mk_resolver accept_all None) = None /\
  resovle_request (memfs_open ex_fs) (fun _ => None) (fun x => x)
    (mk_resolver accept_all None) req = Ok (Found f) /\
  rf_encoding f = Some Gzip /\
  (spec_accepts (allowed_encodings (mk_resolver accept_all None)) Gzip = true /\
   exists v, header_get (req_headers req) (bytes_of "accept-encoding") = Some v /\
             spec_accepts (from_header_value v) Gzip = true).
Proof.
  cbv zeta.
  assert (H1 : resovle_request (memfs_open ex_fs) (fun _ => None) (fun x => x)
                 (mk_resolver accept_all None)
                 (mk_request GET (bytes_of "/a/b.txt") None
                    [(bytes_of "accept-encoding", bytes_of "br, gzip")]) =
               Ok (Found (mk_resolved_file (mk_cursor (bytes_of "gz") 0) (bytes_of "a/b.txt.gz")
                            2 None None (Some Gzip))))
    by (vm_compute; reflexivity).
  split; [reflexivity|split; [exact H1|split; [reflexivity|]]].
  exact (resovle_request_encoding (memfs_open ex_fs) (fun _ => None) (fun x => x)
           (mk_resolver accept_all None) _ _ Gzip eq_refl H1 eq_refl).
Defined.

(** [Resolver::resolve_path] without a rewrite: a [Found] answer is the
    opener's non-directory file at the sanitized path (with [index.html]
    pushed for a request ending in ['/']), or, for an accepted encoding,
    the file at that path with the encoding's suffix appended. *)
Theorem resolve_path_found_file {F} (open : bytes -> result (FileWithMetadata F))
  (mime_guess_first : bytes -> option bytes) (set_charset : bytes -> bytes)
  (r : Resolver) (raw : bytes) (ae : AcceptEncoding) (f : ResolvedFile F) :
  rewrite r = None ->
  resolve_path open mime_guess_first set_charset r raw ae = Ok (Found f) ->
  let rp := requested_path_resolve raw in
  let base := if is_dir_request rp
              then pathbuf_push_bytes (render (sanitized rp)) (bytes_of "index.html")
              else render (sanitized rp) in
  exists file0, open base = Ok file0 /\ fwm_is_dir file0 = false /\
    ((rf_encoding f = None /\ rf_path f = base /\ rf_handle f = fwm_handle file0 /\
      rf_size f = fwm_size file0) \/
     (exists e sib, rf_encoding f = Some e /\ spec_accepts ae e = true /\
        open (base ++ spec_suffix e) = Ok sib /\ rf_path f = base ++ spec_suffix e /\
        rf_handle f = fwm_handle sib /\ rf_size f = fwm_size sib)).
Proof. apply ResolveFacts.resolve_path_found. Qed.

Lemma resolve_path_found_file_witness :
  let f := mk_resolved_file (mk_cursor (bytes_of "<p>") 0) (bytes_of "a/index.html") 3 None
             None None in
  rewrite (mk_resolver accept_all None) = None /\
  resolve_path (memfs_open ex_fs) (fun _ => None) (fun x => x) (mk_resolver accept_all None)
    (bytes_of "/a/") accept_none = Ok (Found f) /\
  (let rp := requested_path_resolve (bytes_of "/a/") in
   let base := if is_dir_request rp
               then pathbuf_push_bytes (render (sanitized rp)) (bytes_of "index.html")
               else render (sanitized rp) in
   exists file0, memfs_open ex_fs base = Ok file0 /\ fwm_is_dir file0 = false /\
    ((rf_encoding f = None /\ rf_path f = base /\ rf_handle f = fwm_handle file0 /\
      rf_size f = fwm_size file0) \/
     (exists e sib, rf_encoding f = Some e /\ spec_accepts accept_none e = true /\
        memfs_open ex_fs (base ++ spec_suffix e) = Ok sib /\ rf_path f = base ++ spec_suffix e /\
        rf_handle f = fwm_handle sib /\ rf_size f = fwm_size sib))).
Proof.
  cbv zeta.
  assert (H1 : resolve_path (memfs_open ex_fs) (fun _ => None) (fun x => x)
                 (mk_resolver accept_all None) (bytes_of "/a/") accept_none =
               Ok (Found (mk_resolved_file (mk_cursor (bytes_of "<p>") 0) (bytes_of "a/index.html")
                            3 None None None)))
    by (vm_compute; reflexivity).
  split; [reflexivity|split; [exact H1|]].
  exact (resolve_path_found_file (memfs_open ex_fs) (fun _ => None) (fun x => x)
           (mk_resolver accept_all None) (bytes_of "/a/") accept_none _ eq_refl H1).
Defined.

(** [Resolver::resolve_path] without a rewrite: the redirect sent for a
    directory requested without a trailing slash is ['/'] followed by
    each sanitized component and ['/']; it never starts with ["//"]. *)
Theorem resolve_path_redirect {F} (open : bytes -> result (FileWithMetadata F))
  (mime_guess_first : bytes -> option bytes) (set_charset : bytes -> bytes)
  (r : Resolver) (raw : bytes) (ae : AcceptEncoding) (t : bytes) :
  rewrite r = None ->
  resolve_path open mime_guess_first set_charset r raw ae = Ok (IsDirectory t) ->
  is_dir_request (requested_path_resolve raw) = false /\
  t = SLASH :: concat (map (fun x => x ++ [SLASH]) (sanitized (requested_path_resolve raw))) /\
  firstn 2 t <> [SLASH; SLASH].
Proof.
  intros Hr H.
  destruct (ResolveFacts.resolve_path_isdir open mime_guess_first set_charset r raw ae t Hr H)
    as (Hd & _ & Ht).
  destruct (ResolveFacts.sanitized_valid raw) as [Hg Hv].
  rewrite ResolveFacts.redirect_target_render in Ht by assumption.
  split; [exact Hd|split; [exact Ht|]]. rewrite Ht. apply ResolveFacts.concat_slash_head. exact Hg.
Qed.

Lemma resolve_path_redirect_witness :
  rewrite (mk_resolver accept_none None) = None /\
  resolve_path (memfs_open ex_fs) (fun _ => None) (fun x => x) (mk_resolver accept_none None)
    (bytes_of "/x/../a") accept_none = Ok (IsDirectory (bytes_of "/a/")) /\
  (is_dir_request (requested_path_resolve (bytes_of "/x/../a")) = false /\
   bytes_of "/a/" = SLASH :: concat (map (fun x => x ++ [SLASH])
                                   (sanitized (requested_path_resolve (bytes_of "/x/../a")))) /\
   firstn 2 (bytes_of "/a/") <> [SLASH; SLASH]).
Proof.
  assert (H1 : resolve_path (memfs_open ex_fs) (fun _ => None) (fun x => x)
                 (mk_resolver accept_none None) (bytes_of "/x/../a") accept_none =
               Ok (IsDirectory (bytes_of "/a/"))) by (vm_compute; reflexivity).
  split; [reflexivity|split; [exact H1|]].
  exact (resolve_path_redirect (memfs_open ex_fs) (fun _ => None) (fun x => x)
           (mk_resolver accept_none None) (bytes_of "/x/../a") accept_none _ eq_refl H1).
Defined.



(** [Static::serve]: a request whose method is neither GET nor HEAD is
    answered 400 with an empty body, whatever its path and headers and
    without opening any file. *)
Theorem serve_method_not_matched {F G}
  (open : bytes -> result (FileWithMetadata F)) (mime_guess_first : bytes -> option bytes)
  (set_charset : bytes -> bytes) (into_file_access : F -> G)
  (http_range_parse : bytes -> Z -> RangeParse) (fmt_http_date : Z -> bytes)
  (parse_http_date_secs : bytes -> option N)
  (st : Static) (req : Request) (boundary : bytes) :
  req_method req <> GET -> req_method req <> HEAD ->
  serve open mime_guess_first set_charset into_file_access http_range_parse fmt_http_date
    parse_http_date_secs st req boundary = Served (mk_response 400 [] BodyEmpty).
Proof.
  intros Hg Hh. unfold serve, resovle_request.
  destruct (req_method req); try congruence; reflexivity.
Qed.

Lemma serve_method_not_matched_witness :
  req_method (mk_request POST (bytes_of "/a/b.txt") None []) <> GET /\
  req_method (mk_request POST (bytes_of "/a/b.txt") None []) <> HEAD /\
  serve (memfs_open ex_fs) (fun _ => None) (fun x => x) (fun c => c)
    (fun _ _ => InvalidRange) (fun _ => []) (fun _ => None)
    (mk_static (mk_resolver accept_all None) None)
    (mk_request POST (bytes_of "/a/b.txt") None []) (bytes_of "B") =
  Served (mk_response 400 [] BodyEmpty).
Proof.
  assert (H1 : req_method (mk_request POST (bytes_of "/a/b.txt") None []) <> GET) by discriminate.
  assert (H2 : req_method (mk_request POST (bytes_of "/a/b.txt") None []) <> HEAD) by discriminate.
  split; [exact H1|split; [exact H2|]].
  exact (serve_method_not_matched (memfs_open ex_fs) (fun _ => None) (fun x => x) (fun c => c)
           (fun _ _ => InvalidRange) (fun _ => []) (fun _ => None)
           (mk_static (mk_resolver accept_all None) None) _ (bytes_of "B") H1 H2).
Defined.

(** [Static::serve] without a rewrite: when opening the sanitized path
    fails, [NotFound] gives 404, [PermissionDenied] gives 403, and any
    other error is returned as the error of [serve]. *)
Theorem serve_open_error {F G}
  (open : bytes -> result (FileWithMetadata F)) (mime_guess_first : bytes -> option bytes)
  (set_charset : bytes -> bytes) (into_file_access : F -> G)
  (http_range_parse : bytes -> Z -> RangeParse) (fmt_http_date : Z -> bytes)
  (parse_http_date_secs : bytes -> option N)
  (st : Static) (req : Request) (boundary : bytes) (k : IoErrorKind) :
  rewrite (resolver st) = None ->
  req_method req = GET \/ req_method req = HEAD ->
  open (render (sanitized (requested_path_resolve (req_path req)))) = Err k ->
  serve open mime_guess_first set_charset into_file_access http_range_parse fmt_http_date
    parse_http_date_secs st req boundary =
  match k with
  | NotFoundKind => Served (mk_response 404 [] BodyEmpty)
  | PermissionDeniedKind => Served (mk_response 403 [] BodyEmpty)
  | OtherKind => ServeError OtherKind
  end.
Proof.
  intros Hr Hm Ho.
  assert (Hres : forall ae, resolve_path open mime_guess_first set_charset (resolver st)
                              (req_path req) ae = map_open_err k).
  { intros ae. unfold resolve_path. rewrite Hr. cbv zeta.
    cbn [rp_path rp_is_dir_request rp_accept_encoding]. rewrite Ho. reflexivity. }
  unfold serve, resovle_request.
  destruct Hm as [Hm|Hm]; rewrite Hm, Hres; destruct k; reflexivity.
Qed.

Lemma serve_open_error_witness :
  rewrite (resolver (mk_static (mk_resolver accept_all None) None)) = None /\
  (req_method (mk_request GET (bytes_of "/a/missing") None []) = GET \/
   req_method (mk_request GET (bytes_of "/a/missing") None []) = HEAD) /\
  memfs_open ex_fs (render (sanitized (requested_path_resolve (bytes_of "/a/missing")))) =
    Err NotFoundKind /\
  serve (memfs_open ex_fs) (fun _ => None) (fun x => x) (fun c => c)
    (fun _ _ => InvalidRange) (fun _ => []) (fun _ => None)
    (mk_static (mk_resolver accept_all None) None)
    (mk_request GET (bytes_of "/a/missing") None []) (bytes_of "B") =
  Served (mk_response 404 [] BodyEmpty).
Proof.
  assert (H : memfs_open ex_fs (render (sanitized (requested_path_resolve (bytes_of "/a/missing"))))
              = Err NotFoundKind) by (vm_compute; reflexivity).
  split; [reflexivity|split; [left; reflexivity|split; [exact H|]]].
  exact (serve_open_error (memfs_open ex_fs) (fun _ => None) (fun x => x) (fun c => c)
           (fun _ _ => InvalidRange) (fun _ => []) (fun _ => None)
           (mk_static (mk_resolver accept_all None) None)
           (mk_request GET (bytes_of "/a/missing") None []) (bytes_of "B") NotFoundKind
           eq_refl (or_introl eq_refl) H).
Defined.

(** [MemoryFs::add] then [open]: any path with the same components as
    the added one opens the added data, with its length as size, the
    given modification time, not a directory, and a cursor at 0. *)
Theorem memfs_add_open (fs : MemoryFileMap) (path path' data : bytes) (m : option Z) :
  components path' = components path ->
  memfs_open (memfs_add fs path data m) path' =
  Ok (mk_fwm (mk_cursor data 0) (Z.of_nat (length data)) m false).
Proof.
  intros Hc. unfold memfs_open, memfs_add. rewrite Hc, MemFacts.map_get_insert_same.
  reflexivity.
Qed.

Lemma memfs_add_open_witness :
  components (bytes_of "a//./b.txt") = components (bytes_of "a/b.txt") /\
  memfs_open (memfs_add memfs_default (bytes_of "a/b.txt") (bytes_of "hi") (Some 5))
    (bytes_of "a//./b.txt") =
  Ok (mk_fwm (mk_cursor (bytes_of "hi") 0) (Z.of_nat (length (bytes_of "hi"))) (Some 5) false).
Proof.
  assert (H : components (bytes_of "a//./b.txt") = components (bytes_of "a/b.txt"))
    by (vm_compute; reflexivity).
  split; [exact H|].
  exact (memfs_add_open memfs_default (bytes_of "a/b.txt") (bytes_of "a//./b.txt")
           (bytes_of "hi") (Some 5) H).
Defined.



(** [FileResponseBuilder::build] for a HEAD request: the body is empty;
    the response is either 304 or 200 with the file's size as
    [Content-Length]. *)
Theorem build_head_no_body {F G} (into_file_access : F -> G)
  (http_range_parse : bytes -> Z -> RangeParse) (fmt_http_date : Z -> bytes)
  (b : FileResponseBuilder) (file : ResolvedFile F) (boundary : bytes) :
  is_head b = true ->
  let r := build into_file_access http_range_parse fmt_http_date b file boundary in
  body r = BodyEmpty /\
  (status r = 304 \/
   (status r = 200 /\ In (bytes_of "content-length", fmt_dec (rf_size file)) (headers r))).
Proof. apply BuildFacts.build_head. Qed.

Lemma build_head_no_body_witness :
  let b := mk_builder None true None (Some (bytes_of "bytes=0-0")) None in
  let file := mk_resolved_file (mk_cursor (bytes_of "hi") 0) (bytes_of "a") 2
                (Some (5 * NANOS_PER_SEC)) None None in
  is_head b = true /\
  (let r := build (fun c : Cursor => c) (fun _ _ => RangeOk [mk_range 0 1]) (fun _ => [])
              b file (bytes_of "B") in
   body r = BodyEmpty /\
   (status r = 304 \/
    (status r = 200 /\ In (bytes_of "content-length", fmt_dec (rf_size file)) (headers r)))).
Proof.
  cbv zeta. split; [reflexivity|].
  exact (build_head_no_body (fun c : Cursor => c) (fun _ _ => RangeOk [mk_range 0 1]) (fun _ => [])
           (mk_builder None true None (Some (bytes_of "bytes=0-0")) None)
           (mk_resolved_file (mk_cursor (bytes_of "hi") 0) (bytes_of "a") 2
              (Some (5 * NANOS_PER_SEC)) None None) (bytes_of "B") eq_refl).
Defined.



(** [FileBytesStream] over an in-memory file ([Cursor<Bytes>], whose
    [poll_read] never moves the cursor): with limit [L] it sends the whole
    data [L / n] times, then its first [L mod n] bytes if that is not zero,
    where [n] is the data's length. *)
Theorem fbs_cursor_delivery (d : bytes) (L : Z) :
  d <> [] -> 0 <= L < u64_mod ->
  drains (fbs_new_with_limit (mk_cursor d 0) L)
    (repeat d (Z.to_nat (L / Z.of_nat (length d))) ++
     (if L mod Z.of_nat (length d) =? 0 then []
      else [firstn (Z.to_nat (L mod Z.of_nat (length d))) d])).
Proof.
  intros Hd HL. apply CursorFacts.fbs_cursor_drains_n; [exact Hd|exact HL|].
  rewrite Z2Nat.id; [reflexivity|]. apply Z.div_pos; [lia|].
  destruct d; [congruence|simpl; lia].
Qed.

Lemma fbs_cursor_delivery_witness :
  bytes_of "abc" <> [] /\ 0 <= 7 < u64_mod /\
  drains (fbs_new_with_limit (mk_cursor (bytes_of "abc") 0) 7)
    [bytes_of "abc"; bytes_of "abc"; bytes_of "a"].
Proof.
  assert (H1 : bytes_of "abc" <> []) by discriminate.
  assert (H2 : 0 <= 7 < u64_mod) by (unfold u64_mod; lia).
  split; [exact H1|split; [exact H2|]].
  exact (fbs_cursor_delivery (bytes_of "abc") 7 H1 H2).
Defined.

(** [FileBytesStreamRange] over an in-memory file: a nonempty range
    inside the data is sent as exactly the range's bytes, in one chunk,
    wherever the cursor started. *)
Theorem fbsr_cursor_range (d : bytes) (p : Z) (r : HttpRange) :
  0 <= range_start r -> 0 < range_length r ->
  range_start r + range_length r <= Z.of_nat (length d) -> range_length r < u64_mod ->
  drains (fbsr_new (mk_cursor d p) r)
         [slice d (range_start r) (range_start r + range_length r)].
Proof. apply CursorFacts.fbsr_cursor_drains. Qed.

Lemma fbsr_cursor_range_witness :
  0 <= range_start (mk_range 6 5) /\ 0 < range_length (mk_range 6 5) /\
  range_start (mk_range 6 5) + range_length (mk_range 6 5) <=
    Z.of_nat (length (bytes_of "hello world")) /\
  range_length (mk_range 6 5) < u64_mod /\
  drains (fbsr_new (mk_cursor (bytes_of "hello world") 3) (mk_range 6 5)) [bytes_of "world"].
Proof.
  assert (H1 : 0 <= range_start (mk_range 6 5)) by (simpl; lia).
  assert (H2 : 0 < range_length (mk_range 6 5)) by (simpl; lia).
  assert (H3 : range_start (mk_range 6 5) + range_length (mk_range 6 5) <=
               Z.of_nat (length (bytes_of "hello world"))) by (vm_compute; discriminate).
  assert (H4 : range_length (mk_range 6 5) < u64_mod) by (unfold u64_mod; simpl; lia).
  split; [exact H1|split; [exact H2|split; [exact H3|split; [exact H4|]]]].
  exact (fbsr_cursor_range (bytes_of "hello world") 3 (mk_range 6 5) H1 H2 H3 H4).
Defined.

(** [Static::serve] over a [MemoryFs] without a rewrite: a GET or HEAD
    for a path that resolves to a file added with [MemoryFs::add], with no
    [Accept-Encoding], [If-Modified-Since] or [Range] header, is answered
    200 with the data's length as [Content-Length]; the body of a GET is
    the data, that of a HEAD is empty. *)
Theorem serve_memfs_file (mime_guess_first : bytes -> option bytes)
  (set_charset : bytes -> bytes) (http_range_parse : bytes -> Z -> RangeParse)
  (fmt_http_date : Z -> bytes) (parse_http_date_secs : bytes -> option N)
  (fs0 : MemoryFileMap) (ns : list bytes) (data : bytes) (m : option Z)
  (st : Static) (req : Request) (boundary : bytes) :
  rewrite (resolver st) = None ->
  requested_path_resolve (req_path req) = mk_requested_path ns false ->
  req_method req = GET \/ req_method req = HEAD ->
  header_get (req_headers req) (bytes_of "accept-encoding") = None ->
  header_get (req_headers req) (bytes_of "if-modified-since") = None ->
  header_get (req_headers req) (bytes_of "range") = None ->
  Z.of_nat (length data) < u64_mod ->
  exists hs b,
    serve (memfs_open (memfs_add fs0 (render ns) data m)) mime_guess_first set_charset
      (fun c => c) http_range_parse fmt_http_date parse_http_date_secs st req boundary =
    Served (mk_response 200 hs b) /\
    In (bytes_of "content-length", fmt_dec (Z.of_nat (length data))) hs /\
    drains b (if (match req_method req with HEAD => true | _ => false end)
                 || Nat.eqb (length data) 0 then [] else [data]).
Proof. apply ServeFacts.serve_memfs_file_gen. Qed.

Lemma serve_memfs_file_witness :
  let req := mk_request GET (bytes_of "/a/b.txt") (Some (bytes_of "v=1"))
               [(bytes_of "user-agent", bytes_of "t")] in
  let st := mk_static (mk_resolver accept_all None) (Some 60) in
  rewrite (resolver st) = None /\
  requested_path_resolve (req_path req) = mk_requested_path [bytes_of "a"; bytes_of "b.txt"] false /\
  (req_method req = GET \/ req_method req = HEAD) /\
  header_get (req_headers req) (bytes_of "accept-encoding") = None /\
  header_get (req_headers req) (bytes_of "if-modified-since") = None /\
  header_get (req_headers req) (bytes_of "range") = None /\
  Z.of_nat (length (bytes_of "hi")) < u64_mod /\
  exists hs b,
    serve (memfs_open (memfs_add memfs_default (render [bytes_of "a"; bytes_of "b.txt"])
                         (bytes_of "hi") (Some (5 * NANOS_PER_SEC))))
      (fun _ => None) (fun x => x) (fun c => c) (fun _ _ => InvalidRange) (fun _ => [])
      (fun _ => None) st req (bytes_of "B") =
    Served (mk_response 200 hs b) /\
    In (bytes_of "content-length", fmt_dec (Z.of_nat (length (bytes_of "hi")))) hs /\
    drains b (if (match req_method req with HEAD => true | _ => false end)
                 || Nat.eqb (length (bytes_of "hi")) 0 then [] else [bytes_of "hi"]).
Proof.
  cbv zeta.
  assert (H2 : requested_path_resolve (bytes_of "/a/b.txt") =
               mk_requested_path [bytes_of "a"; bytes_of "b.txt"] false)
    by (vm_compute; reflexivity).
  assert (H7 : Z.of_nat (length (bytes_of "hi")) < u64_mod) by (unfold u64_mod; simpl; lia).
  split; [reflexivity|split; [exact H2|split; [left; reflexivity|]]].
  split; [reflexivity|split; [reflexivity|split; [reflexivity|split; [exact H7|]]]].
  exact (serve_memfs_file (fun _ => None) (fun x => x) (fun _ _ => InvalidRange) (fun _ => [])
           (fun _ => None) memfs_default [bytes_of "a"; bytes_of "b.txt"] (bytes_of "hi")
           (Some (5 * NANOS_PER_SEC)) (mk_static (mk_resolver accept_all None) (Some 60))
           (mk_request GET (bytes_of "/a/b.txt") (Some (bytes_of "v=1"))
              [(bytes_of "user-agent", bytes_of "t")]) (bytes_of "B")
           eq_refl H2 (or_introl eq_refl) eq_refl eq_refl eq_refl H7).
Defined.
